(** * invoke.runners: [normalize_hide], [Runner], [Local] and [Result]
    as Rocq functions, and the properties of the command runner.

    Python values are embedded as the inductive [value]; dictionaries
    ([kwargs], [context.config.run], [opts]) are stdpp finite maps keyed by
    option name; a Python [str] is a list of code points; the mutable
    [Runner] instance and everything it prints are threaded through a small
    state-and-exception monad. *)

From Stdlib Require Import ZArith NArith List String Ascii Bool Lia.
From Stdlib Require Import DecimalString.
From stdpp Require Import base decidable option list gmap strings fin_maps.

Local Open Scope Z_scope.
Local Open Scope list_scope.

(* ===================================================================== *)
(** ** Python data *)
(* ===================================================================== *)

(** A Python text string: the sequence of its code points. *)
Definition pystr := list N.

(** A Python byte string. *)
Definition bytes := list N.

(** An ASCII literal of the source, as a [pystr]. *)
Definition lit (s : string) : pystr :=
  List.map N_of_ascii (list_ascii_of_string s).

(** The values an option can hold: [None], booleans, integers, text and
    file-like objects (identified by name; equal only to themselves). *)
Inductive value : Type :=
| VNone
| VBool (b : bool)
| VInt (n : Z)
| VStr (s : pystr)
| VStream (name : string).

#[global] Instance value_eq_dec : EqDecision value.
Proof. solve_decision. Defined.

(** Truth value of an object ([if v:], [not v], [v or w]). *)
Definition truthy (v : value) : bool :=
  match v with
  | VNone => false
  | VBool b => b
  | VInt n => negb (n =? 0)
  | VStr s => match s with [] => false | _ => true end
  | VStream _ => true
  end.

(** [v is None]. *)
Definition is_None (v : value) : bool :=
  match v with VNone => true | _ => false end.

(** [v == w].  [bool] is a subclass of [int]: [False == 0], [True == 1]. *)
Definition py_eq (v w : value) : bool :=
  match v, w with
  | VNone, VNone => true
  | VBool a, VBool b => Bool.eqb a b
  | VBool a, VInt n | VInt n, VBool a => (n =? Z.b2z a)
  | VInt n, VInt m => (n =? m)
  | VStr s, VStr t => bool_decide (s = t)
  | VStream a, VStream b => bool_decide (a = b)
  | _, _ => false
  end.

(** [v in (w1, ..., wn)]: some element is [v] or equals it. *)
Definition py_in (v : value) (t : list value) : bool :=
  existsb (py_eq v) t.

(* ===================================================================== *)
(** ** class Result *)
(* ===================================================================== *)

Record Result : Type := mkResult {
  exited : Z;
  return_code : Z;
  stdout : pystr;
  stderr : pystr;
  pty : value;
  exception : value
}.

(** [Result.__init__(self, stdout, stderr, exited, pty, exception=None)] *)
Definition Result_init (stdout stderr : pystr) (exited : Z) (pty : value)
    (exception : value) : Result :=
  {| exited := exited; return_code := exited;
     stdout := stdout; stderr := stderr;
     pty := pty; exception := exception |}.

(** [Result.__nonzero__] *)
Definition Result_nonzero (self : Result) : bool := (exited self =? 0).

(** [Result.__bool__] *)
Definition Result_bool (self : Result) : bool := Result_nonzero self.

(** [Result.ok] *)
Definition ok (self : Result) : bool := (exited self =? 0).

(** [Result.failed] *)
Definition failed (self : Result) : bool := negb (ok self).

(* ===================================================================== *)
(** ** Exceptions *)
(* ===================================================================== *)

(** Modelled from the spec: [Failure], the typed failure that carries the
    Result; its class is defined in [invoke.exceptions], which is not among
    the sources.  The other constructors are the built-in exceptions [run]
    can raise.  A [ValueError] keeps the message as the format template and
    the two arguments of [err.format(val, hide_vals)]: the text is the
    template with [{0!r}] and [{1!r}] replaced by the [repr] of the
    arguments. *)
Inductive exn : Type :=
| ValueError (template : string) (arg0 : value) (arg1 : list value)
| KeyError (key : string)
| AttributeError (name : string)
| Failure (result : Result).

(* ===================================================================== *)
(** ** normalize_hide *)
(* ===================================================================== *)

Definition hide_vals : list value :=
  [VNone; VBool false; VStr (lit "out"); VStr (lit "stdout");
   VStr (lit "err"); VStr (lit "stderr"); VStr (lit "both"); VBool true].

Definition hide_err : string := "'hide' got {0!r} which is not in {1!r}".

Definition normalize_hide (val : value) : exn + list value :=
  if negb (py_in val hide_vals) then
    inl (ValueError hide_err val hide_vals)
  else
    inr (if py_in val [VNone; VBool false] then []
         else if py_in val [VStr (lit "both"); VBool true] then
           [VStr (lit "out"); VStr (lit "err")]
         else if py_eq val (VStr (lit "stdout")) then [VStr (lit "out")]
         else if py_eq val (VStr (lit "stderr")) then [VStr (lit "err")]
         else [val]).

(* ===================================================================== *)
(** ** Text helpers: [str.join], [str.replace] *)
(* ===================================================================== *)

(** [''.join(parts)] *)
Definition join (parts : list pystr) : pystr := List.concat parts.

Fixpoint startswith (s old : pystr) {struct old} : bool :=
  match old, s with
  | [], _ => true
  | _ :: _, [] => false
  | a :: old', b :: s' => (a =? b)%N && startswith s' old'
  end.

(** Left-to-right scan of [s.replace(old, new)] for a non-empty [old]:
    [skip] counts the characters of the current match still to be passed
    over. *)
Fixpoint replace_from (old new : pystr) (skip : nat) (s : pystr) : pystr :=
  match s with
  | [] => []
  | c :: s' =>
      match skip with
      | S k => replace_from old new k s'
      | O =>
          if startswith s old
          then new ++ replace_from old new (Nat.pred (length old)) s'
          else c :: replace_from old new O s'
      end
  end.

(** [s.replace(old, new)], [old] non-empty: every non-overlapping
    occurrence, leftmost first. *)
Definition str_replace (s old new : pystr) : pystr := replace_from old new O s.

Definition CR : N := 13%N.
Definition LF : N := 10%N.

(** Universal newlines as the specification words it: every CR LF pair and
    every remaining bare CR becomes one LF.  [after_cr] records that the
    previous character was a CR, already turned into LF. *)
Fixpoint universal_newlines_from (after_cr : bool) (s : pystr) : pystr :=
  match s with
  | [] => []
  | c :: s' =>
      if (c =? CR)%N then LF :: universal_newlines_from true s'
      else if (c =? LF)%N && after_cr then universal_newlines_from false s'
      else c :: universal_newlines_from false s'
  end.

Definition universal_newlines (s : pystr) : pystr :=
  universal_newlines_from false s.

(* ===================================================================== *)
(** ** The codecs library, as far as [_mux] uses it *)
(* ===================================================================== *)

(** The [errors] argument of a decoder. *)
Inductive error_policy : Type := strict | replace.

(** Modelled from the spec: the incremental text decoder of the Stream
    Multiplexer, which holds the undecoded tail of the bytes between calls
    and is fed chunk by chunk.  It is the standard library's [codecs]
    module, not code of this repository.  A codec is given by its
    [_buffer_decode(input, errors, final)], which returns the decoded text
    and the number of bytes consumed, or raises [UnicodeDecodeError]
    ([None]); which codecs exist is a parameter of the environment. *)
Record codec : Type := mkCodec {
  buffer_decode : bytes -> error_policy -> bool -> option (pystr * nat)
}.

(** Modelled from the spec: one call of the decoder,
    [codecs.BufferedIncrementalDecoder.decode(input, final)]: the decoder
    object keeps the undecoded tail in [buffer]; the new buffer is returned
    with the output. *)
Definition decode (c : codec) (errors : error_policy) (buffer input : bytes)
    (final : bool) : option (pystr * bytes) :=
  let data := buffer ++ input in
  match buffer_decode c data errors final with
  | None => None
  | Some (result, consumed) => Some (result, drop consumed data)
  end.

Definition nonempty {A} (l : list A) : bool :=
  match l with [] => false | _ => true end.

(** What a generator yields before it stops, and whether it stopped by
    returning ([true]) or by an exception ([false]). *)
Definition generated (A : Type) : Type := (list A * bool)%type.

(** Modelled from the spec: [codecs.iterdecode(iterator, encoding,
    errors)], from the decoder's current [buffer]: each input is decoded
    incrementally and non-empty outputs are yielded; when the iterator is
    exhausted the decoder is flushed with [decode(b'', True)].  When the
    iterator itself raises ([returns = false]) the exception passes through
    and the flush does not happen. *)
Fixpoint iterdecode_from (c : codec) (errors : error_policy) (buffer : bytes)
    (iterator : list bytes) (returns : bool) : generated pystr :=
  match iterator with
  | [] =>
      if returns then
        match decode c errors buffer [] true with
        | None => ([], false)
        | Some (output, _) => (if nonempty output then [output] else [], true)
        end
      else ([], false)
  | input :: rest =>
      match decode c errors buffer input false with
      | None => ([], false)
      | Some (output, buffer') =>
          let '(ys, finished) :=
            iterdecode_from c errors buffer' rest returns in
          ((if nonempty output then [output] else []) ++ ys, finished)
      end
  end.

Definition iterdecode (c : codec) (errors : error_policy)
    (iterator : generated bytes) : generated pystr :=
  iterdecode_from c errors [] (fst iterator) (snd iterator).

(* ===================================================================== *)
(** ** The environment of a call *)
(* ===================================================================== *)

(** What a started command does, as the parent observes it.  The two lists
    are the results of the successive [os.read(fd, 1000)] calls on the
    child's stdout pipe (on the pty master, when it was forked under a
    pty) and on its stderr pipe.  A read past the end of the list on a pipe
    returns the empty byte string, the end of file.  On the master of a pty
    whose child has exited the read past the end does the same on some
    systems and raises [OSError] ([EIO]) on others, Linux among them:
    [pty_EIO] tells which. *)
Record child_process : Type := mkProcess {
  stdout_reads : list bytes;
  stderr_reads : list bytes;
  pty_EIO : bool;
  popen_returncode : Z;      (* [Popen.returncode] after [wait()] *)
  waitpid_status : Z         (* the status [os.waitpid(pid, 0)] reports *)
}.

(** A [read_func]: [partial(os.read, fd)], given by the results of its
    successive calls and by what the call after the last of them does:
    return the empty byte string, or raise [OSError] ([raises_at_end]). *)
Record reader : Type := mkReader {
  reads : list bytes;
  raises_at_end : bool
}.

(** What a call finds around it: [platform.WINDOWS],
    [os.isatty(sys.stdin.fileno())], [locale.getpreferredencoding(False)],
    the codec registry ([None]: [LookupError]) and, by command and pty
    mode, the child that [start] gets. *)
Record environment : Type := mkEnv {
  WINDOWS : bool;
  stdin_isatty : bool;
  getpreferredencoding : pystr;
  getincrementaldecoder : pystr -> option codec;
  spawn : pystr -> bool -> child_process
}.

Definition sys_stdout : value := VStream "sys.stdout".
Definition sys_stderr : value := VStream "sys.stderr".

(** What a call does to the outside world, in order: [print(text)]; the
    [sys.stderr.write(text)] of [should_use_pty]; the start of the child
    ([pty.fork()] and [execv], or [Popen]); the
    [dest.write(data); dest.flush()] of [_mux]; and the traceback that
    [threading] prints on [sys.stderr] when an exception ends a thread. *)
Inductive event : Type :=
| EvPrint (text : pystr)
| EvWarning (text : pystr)
| EvSpawn (command : pystr) (use_pty : bool)
| EvWrite (dest : string) (data : pystr)
| EvTraceback.

(* ===================================================================== *)
(** ** The Runner instance and the monad of its methods *)
(* ===================================================================== *)

(** A [Runner] (or [Local]) instance.  [__init__] sets the first two
    attributes; [run], [start] and [wait] create the others, which do not
    exist ([None] here) before. *)
Record Runner : Type := mkRunner {
  context_config_run : gmap string value;  (* [self.context.config.run] *)
  warned_about_pty_fallback : bool;
  using_pty : option value;
  process : option child_process;          (* the [Popen] object *)
  parent_fd : option child_process;        (* [self.pid], [self.parent_fd] *)
  status : option Z
}.

(** [Runner.__init__(self, context)] *)
Definition Runner_init (context_run : gmap string value) : Runner :=
  {| context_config_run := context_run;
     warned_about_pty_fallback := false;
     using_pty := None; process := None; parent_fd := None;
     status := None |}.

(** The state a method runs in: the instance and what was printed so far. *)
Record state : Type := mkState {
  self : Runner;
  log : list event
}.

(** A method either raises or returns, and leaves a new state. *)
Definition M (A : Type) : Type := state -> (exn + A) * state.

Definition ret {A} (a : A) : M A := fun s => (inr a, s).

Definition raise {A} (e : exn) : M A := fun s => (inl e, s).

Definition bind {A B} (m : M A) (k : A -> M B) : M B :=
  fun s =>
    match m s with
    | (inl e, s') => (inl e, s')
    | (inr a, s') => k a s'
    end.

Notation "x <- m ;; k" := (bind m (fun x => k))
  (at level 100, m at next level, right associativity).
Notation "m ;;; k" := (bind m (fun _ => k))
  (at level 100, right associativity).

Definition get_self : M Runner := fun s => (inr (self s), s).

Definition modify (f : Runner -> Runner) : M unit :=
  fun s => (inr tt, {| self := f (self s); log := log s |}).

Definition emit (evs : list event) : M unit :=
  fun s => (inr tt, {| self := self s; log := log s ++ evs |}).

(** [self.warned_about_pty_fallback = b] *)
Definition set_warned_about_pty_fallback (b : bool) : M unit :=
  modify (fun r =>
    {| context_config_run := context_config_run r;
       warned_about_pty_fallback := b;
       using_pty := using_pty r;
       process := process r; parent_fd := parent_fd r;
       status := status r |}).

(** [self.using_pty = u] *)
Definition set_using_pty (u : value) : M unit :=
  modify (fun r =>
    {| context_config_run := context_config_run r;
       warned_about_pty_fallback := warned_about_pty_fallback r;
       using_pty := Some u;
       process := process r; parent_fd := parent_fd r;
       status := status r |}).

(** [self.process = p] *)
Definition set_process (p : child_process) : M unit :=
  modify (fun r =>
    {| context_config_run := context_config_run r;
       warned_about_pty_fallback := warned_about_pty_fallback r;
       using_pty := using_pty r;
       process := Some p; parent_fd := parent_fd r;
       status := status r |}).

(** [self.pid, self.parent_fd = p] *)
Definition set_parent_fd (p : child_process) : M unit :=
  modify (fun r =>
    {| context_config_run := context_config_run r;
       warned_about_pty_fallback := warned_about_pty_fallback r;
       using_pty := using_pty r;
       process := process r; parent_fd := Some p;
       status := status r |}).

(** [self.status = st] *)
Definition set_status (st : Z) : M unit :=
  modify (fun r =>
    {| context_config_run := context_config_run r;
       warned_about_pty_fallback := warned_about_pty_fallback r;
       using_pty := using_pty r;
       process := process r; parent_fd := parent_fd r;
       status := Some st |}).

(** [d[key]] *)
Definition getitem (d : gmap string value) (key : string) : M value :=
  match d !! key with
  | Some v => ret v
  | None => raise (KeyError key)
  end.

(** [self.name], for an attribute created after [__init__]. *)
Definition getattr {A} (name : string) (field : Runner -> option A) : M A :=
  r <- get_self ;;
  match field r with
  | Some a => ret a
  | None => raise (AttributeError name)
  end.

Definition lift {A} (x : exn + A) : M A :=
  match x with
  | inl e => raise e
  | inr a => ret a
  end.

(* ===================================================================== *)
(** ** Runner.should_use_pty and Local.should_use_pty *)
(* ===================================================================== *)

(** [Runner.should_use_pty(self, pty, fallback)]: [fallback] is not used. *)
Definition Runner_should_use_pty (pty fallback : value) : M value :=
  ret pty.

Definition pty_fallback_warning : pystr :=
  lit "WARNING: stdin is not a pty; falling back to non-pty execution!"
    ++ [LF].

(** [Local.should_use_pty(self, pty=False, fallback=True)] *)
Definition Local_should_use_pty (E : environment) (pty fallback : value)
    : M value :=
  if truthy pty then
    if negb (stdin_isatty E) && truthy fallback then
      r <- get_self ;;
      (if negb (warned_about_pty_fallback r) then
         emit [EvWarning pty_fallback_warning] ;;;
         set_warned_about_pty_fallback true
       else ret tt) ;;;
      ret (VBool false)
    else ret (VBool true)
  else ret (VBool false).

(* ===================================================================== *)
(** ** Local: start, wait, returncode, the readers and _mux *)
(* ===================================================================== *)

(** What one [_mux] thread did: the writes to its sink (the name of the
    sink and the data), the chunks appended to its buffer, and whether it
    ran to its end ([false]: an exception ended the thread; the main thread
    does not see it, [threading] prints its traceback). *)
Record thread : Type := mkThread {
  written : list (string * pystr);
  captured : list pystr;
  finished : bool
}.

(** [os.WEXITSTATUS(status)] *)
Definition WEXITSTATUS (status : Z) : Z := Z.land (Z.shiftr status 8) 255.

(** [Local.start(self, command)]; the forked child itself goes on to
    [execv] and is not followed. *)
Definition Local_start (E : environment) (command : pystr) : M unit :=
  u <- getattr "using_pty" using_pty ;;
  if truthy u then
    emit [EvSpawn command true] ;;;
    set_parent_fd (spawn E command true)
  else
    emit [EvSpawn command false] ;;;
    set_process (spawn E command false).

(** [Local.wait(self)]: [os.waitpid(pid, 0)] blocks until the child has
    exited, so the loop body runs once. *)
Definition Local_wait : M unit :=
  u <- getattr "using_pty" using_pty ;;
  if truthy u then
    p <- getattr "pid" parent_fd ;;
    set_status (waitpid_status p)
  else
    p <- getattr "process" process ;; ret tt.

(** [Local.returncode(self)] *)
Definition Local_returncode : M Z :=
  u <- getattr "using_pty" using_pty ;;
  if truthy u then
    st <- getattr "status" status ;; ret (WEXITSTATUS st)
  else
    p <- getattr "process" process ;; ret (popen_returncode p).

(** The reader of the pty master and the reader of a pipe. *)
Definition pty_reader (p : child_process) : reader :=
  {| reads := stdout_reads p; raises_at_end := pty_EIO p |}.

Definition pipe_reader (chunks : list bytes) : reader :=
  {| reads := chunks; raises_at_end := false |}.

(** [Local.stdout_reader]: [partial(os.read, self.parent_fd)] under a pty,
    [partial(os.read, self.process.stdout.fileno())] otherwise. *)
Definition Local_stdout_reader : M reader :=
  u <- getattr "using_pty" using_pty ;;
  if truthy u then
    p <- getattr "parent_fd" parent_fd ;; ret (pty_reader p)
  else
    p <- getattr "process" process ;; ret (pipe_reader (stdout_reads p)).

(** [Local.stderr_reader] *)
Definition Local_stderr_reader : M reader :=
  p <- getattr "process" process ;; ret (pipe_reader (stderr_reads p)).

(** The inner generator [get()] of [_mux]: it yields the reads up to the
    first empty one, at which it returns; a read that raises ends it by
    that exception.  [os.read] returns [bytes], so the
    [data.encode(encoding)] branch is not taken. *)
Fixpoint get_from (at_end_raises : bool) (results : list bytes)
    : generated bytes :=
  match results with
  | [] => ([], negb at_end_raises)
  | data :: rest =>
      if nonempty data then
        let '(ys, returns) := get_from at_end_raises rest in
        (data :: ys, returns)
      else ([], true)
  end.

Definition get (read_func : reader) : generated bytes :=
  get_from (raises_at_end read_func) (reads read_func).

(** The body of the [for data in codecs.iterdecode(...)] loop of [_mux]. *)
Fixpoint mux_loop (dest : value) (hide : bool) (items : list pystr)
    (end_ok : bool) : thread :=
  match items with
  | [] => {| written := []; captured := []; finished := end_ok |}
  | data :: rest =>
      if negb hide then
        match dest with
        | VStream name =>
            let t := mux_loop dest hide rest end_ok in
            {| written := (name, data) :: written t;
               captured := data :: captured t;
               finished := finished t |}
        | _ =>   (* [dest] has no [write] *)
            {| written := []; captured := []; finished := false |}
        end
      else
        let t := mux_loop dest hide rest end_ok in
        {| written := written t;
           captured := data :: captured t;
           finished := finished t |}
  end.

(** [codecs.getincrementaldecoder(encoding)], for any object given as
    [encoding]. *)
Definition lookup_decoder (E : environment) (encoding : value) : option codec :=
  match encoding with
  | VStr name => getincrementaldecoder E name
  | _ => None
  end.

(** [Local._mux(self, read_func, dest, buffer_, hide, encoding)]; the
    chunks appended to [buffer_] are returned in [captured]. *)
Definition Local_mux (E : environment) (read_func : reader) (dest : value)
    (hide : bool) (encoding : value) : thread :=
  match lookup_decoder E encoding with
  | None => {| written := []; captured := []; finished := false |}
  | Some c =>
      let '(items, end_ok) := iterdecode c replace (get read_func) in
      mux_loop dest hide items end_ok
  end.

(* ===================================================================== *)
(** ** Runner.run *)
(* ===================================================================== *)

(** The methods [Runner.run] calls on [self]; a subclass supplies them. *)
Class RunnerClass : Type := {
  should_use_pty : value -> value -> M value;
  start : pystr -> M unit;
  wait : M unit;
  returncode : M Z;
  stdout_reader : M reader;
  stderr_reader : M reader;
  _mux : reader -> value -> bool -> value -> M thread
}.

(** The base class defines [should_use_pty] only. *)
Definition BaseRunner : RunnerClass :=
  {| should_use_pty := Runner_should_use_pty;
     start := fun _ => raise (AttributeError "start");
     wait := raise (AttributeError "wait");
     returncode := raise (AttributeError "returncode");
     stdout_reader := raise (AttributeError "stdout_reader");
     stderr_reader := raise (AttributeError "stderr_reader");
     _mux := fun _ _ _ _ => raise (AttributeError "_mux") |}.

(** [class Local(Runner)] *)
Definition Local (E : environment) : RunnerClass :=
  {| should_use_pty := Local_should_use_pty E;
     start := Local_start E;
     wait := Local_wait;
     returncode := Local_returncode;
     stdout_reader := Local_stdout_reader;
     stderr_reader := Local_stderr_reader;
     _mux := fun read_func dest hide encoding =>
               ret (Local_mux E read_func dest hide encoding) |}.

(** The loop that merges [kwargs] into the context defaults:
    [runtime = kwargs.pop(key, None)] and
    [opts[key] = value if runtime is None else runtime], for every item of
    [self.context.config.run].  Returns [opts] and what is left of
    [kwargs]. *)
Definition normalize_kwargs (config_run kwargs : gmap string value)
    : gmap string value * gmap string value :=
  map_fold
    (fun key val '(opts, kwargs) =>
       let runtime := default VNone (kwargs !! key) in
       (<[key := if is_None runtime then val else runtime]> opts,
        delete key kwargs))
    (∅, kwargs) config_run.

Definition ESC : N := 27%N.

(** ["\033[1;37m{0}\033[0m".format(command)] *)
Definition echo_text (command : pystr) : pystr :=
  [ESC] ++ lit "[1;37m" ++ command ++ [ESC] ++ lit "[0m".

Definition no_thread : thread :=
  {| written := []; captured := []; finished := true |}.

(** What the outside world sees of a thread: its writes, then its
    traceback if an exception ended it. *)
Definition thread_events (t : thread) : list event :=
  List.map (fun w => EvWrite (fst w) (snd w)) (written t)
  ++ (if finished t then [] else [EvTraceback]).

(** The last step of [run]:
    [if not (result or opts['warn']): raise Failure(result)] and
    [return result]; [or] looks at [opts['warn']] only when [result] is
    false. *)
Definition raise_or_return (opts : gmap string value) (result : Result)
    : M Result :=
  c <- (if Result_bool result then ret true
        else w <- getitem opts "warn" ;; ret (truthy w)) ;;
  if negb c then raise (Failure result) else ret result.

(** The body of [run] between the normalization of [kwargs] and the last
    step: from [opts] to the [Result].  The normalized [hide] tuple is kept
    in the local [hide] instead of being stored back into [opts].  The
    [_mux] threads run while the main thread waits; what they do is
    logged per thread, the stdout thread first (the interleaving of the two
    is not modelled). *)
Definition execute (C : RunnerClass) (E : environment) (command : pystr)
    (opts : gmap string value) : M Result :=
  let exception := VBool false in
  h <- getitem opts "hide" ;;
  hide <- lift (normalize_hide h) ;;
  o <- getitem opts "out_stream" ;;
  let out_stream := if is_None o then sys_stdout else o in
  e <- getitem opts "err_stream" ;;
  let err_stream := if is_None e then sys_stderr else e in
  echo <- getitem opts "echo" ;;
  (if truthy echo then emit [EvPrint (echo_text command)] else ret tt) ;;;
  p <- getitem opts "pty" ;;
  f <- getitem opts "fallback" ;;
  u <- should_use_pty p f ;;
  set_using_pty u ;;;
  start command ;;;
  enc <- getitem opts "encoding" ;;
  let encoding := if is_None enc then VStr (getpreferredencoding E) else enc in
  out_reader <- stdout_reader ;;
  t_out <- _mux out_reader out_stream (py_in (VStr (lit "out")) hide) encoding ;;
  u <- getattr "using_pty" using_pty ;;
  t_err <- (if negb (truthy u) then
              err_reader <- stderr_reader ;;
              _mux err_reader err_stream (py_in (VStr (lit "err")) hide)
                   encoding
            else ret no_thread) ;;
  emit (thread_events t_out ++ thread_events t_err) ;;;
  wait ;;;
  let stdout := join (captured t_out) in
  let stderr := join (captured t_err) in
  let stdout :=
    if WINDOWS E
    then str_replace (str_replace stdout [CR; LF] [LF]) [CR] [LF]
    else stdout in
  let stderr :=
    if WINDOWS E
    then str_replace (str_replace stderr [CR; LF] [LF]) [CR] [LF]
    else stderr in
  exited <- returncode ;;
  u <- getattr "using_pty" using_pty ;;
  ret (Result_init stdout stderr exited u exception).

(** [Runner.run(self, command, **kwargs)]: normalize [kwargs] with the
    configuration, execute, then return the result or raise it as a
    failure. *)
Definition run (C : RunnerClass) (E : environment) (command : pystr)
    (kwargs : gmap string value) : M Result :=
  r <- get_self ;;
  let opts := fst (normalize_kwargs (context_config_run r) kwargs) in
  result <- execute C E command opts ;;
  raise_or_return opts result.

(** A call of [run] on a [Local] instance, and a sequence of calls on the
    same instance. *)
Record call : Type := mkCall {
  call_env : environment;
  call_command : pystr;
  call_kwargs : gmap string value
}.

Definition Local_run (c : call) : M Result :=
  run (Local (call_env c)) (call_env c) (call_command c) (call_kwargs c).

(** Each call is made whether or not the one before raised (the caller
    catches); the outcomes are collected. *)
Fixpoint run_all (calls : list call) (s : state)
    : list (exn + Result) * state :=
  match calls with
  | [] => ([], s)
  | c :: rest =>
      let '(x, s') := Local_run c s in
      let '(xs, s'') := run_all rest s' in
      (x :: xs, s'')
  end.

Definition initial_state (context_run : gmap string value) : state :=
  {| self := Runner_init context_run; log := [] |}.

(* ===================================================================== *)
(** ** Two codecs of the registry: latin-1 and UTF-8 *)
(* ===================================================================== *)

(** Two instances of the codec parameter, for examples.
    [latin_1_decode]: every byte is its own code point. *)
Definition latin_1 : codec :=
  {| buffer_decode := fun input _ _ => Some (input, length input) |}.

(** What the UTF-8 decoder finds at the head of its input. *)
Inductive utf8_head : Type :=
| Char (cp : N) (size : nat)   (* a character encoded on [size] bytes *)
| Invalid (size : nat)         (* an invalid sequence of [size] bytes *)
| Truncated.                   (* a valid prefix: more bytes are needed *)

Definition is_continuation (b : N) : bool := ((128 <=? b) && (b <? 192))%N.

Definition low6 (b : N) : N := N.land b 63.

(** One character of UTF-8: lead byte, then the continuation bytes, with
    the ranges that exclude overlong forms, surrogates and code points
    above U+10FFFF.  An invalid sequence ends where the first wrong byte
    stands. *)
Definition utf8_step (s : bytes) : utf8_head :=
  match s with
  | [] => Truncated
  | ch :: s1 =>
      if (ch <? 128)%N then Char ch 1
      else if (ch <? 194)%N then Invalid 1
      else if (ch <? 224)%N then
        match s1 with
        | [] => Truncated
        | ch2 :: _ =>
            if is_continuation ch2
            then Char (N.lor (N.shiftl (N.land ch 31) 6) (low6 ch2)) 2
            else Invalid 1
        end
      else if (ch <? 240)%N then
        match s1 with
        | [] => Truncated
        | ch2 :: s2 =>
            if negb (is_continuation ch2)
               || (if (ch2 <? 160)%N then (ch =? 224)%N else (ch =? 237)%N)
            then Invalid 1
            else
              match s2 with
              | [] => Truncated
              | ch3 :: _ =>
                  if is_continuation ch3
                  then Char (N.lor (N.shiftl (N.land ch 15) 12)
                               (N.lor (N.shiftl (low6 ch2) 6) (low6 ch3))) 3
                  else Invalid 2
              end
        end
      else if (ch <? 245)%N then
        match s1 with
        | [] => Truncated
        | ch2 :: s2 =>
            if negb (is_continuation ch2)
               || (if (ch2 <? 144)%N then (ch =? 240)%N else (ch =? 244)%N)
            then Invalid 1
            else
              match s2 with
              | [] => Truncated
              | ch3 :: s3 =>
                  if negb (is_continuation ch3) then Invalid 2
                  else
                    match s3 with
                    | [] => Truncated
                    | ch4 :: _ =>
                        if is_continuation ch4
                        then Char (N.lor (N.shiftl (N.land ch 7) 18)
                                     (N.lor (N.shiftl (low6 ch2) 12)
                                        (N.lor (N.shiftl (low6 ch3) 6)
                                           (low6 ch4)))) 4
                        else Invalid 3
                    end
              end
        end
      else Invalid 1
  end.

(** U+FFFD, the replacement character. *)
Definition REPLACEMENT : N := 65533%N.

(** [utf_8_decode(input, errors, final)], at most [fuel] characters: an
    invalid sequence raises under [strict] and becomes U+FFFD under
    [replace]; a truncated tail is left unconsumed unless [final]. *)
Fixpoint utf_8_decode_fuel (fuel : nat) (input : bytes) (errors : error_policy)
    (final : bool) : option (pystr * nat) :=
  match fuel, input with
  | O, _ | _, [] => Some ([], O)
  | S fuel', _ :: _ =>
      match utf8_step input with
      | Char cp size =>
          match utf_8_decode_fuel fuel' (drop size input) errors final with
          | Some (text, consumed) => Some (cp :: text, (size + consumed)%nat)
          | None => None
          end
      | Invalid size =>
          match errors with
          | strict => None
          | replace =>
              match utf_8_decode_fuel fuel' (drop size input) errors final with
              | Some (text, consumed) =>
                  Some (REPLACEMENT :: text, (size + consumed)%nat)
              | None => None
              end
          end
      | Truncated =>
          if final then
            match errors with
            | strict => None
            | replace => Some ([REPLACEMENT], length input)
            end
          else Some ([], O)
      end
  end.

(** Every step consumes a byte, so the length of the input is fuel
    enough. *)
Definition utf_8_decode (input : bytes) (errors : error_policy) (final : bool)
    : option (pystr * nat) :=
  utf_8_decode_fuel (length input) input errors final.

Definition utf_8 : codec := {| buffer_decode := utf_8_decode |}.

(* ===================================================================== *)
(** ** A concrete environment, for examples *)
(* ===================================================================== *)

(** A codec that takes [errors='strict'] only, as [encodings.idna] does:
    for any other policy its decoder raises [UnicodeError].  Only that
    refusal is of interest here; under [strict] it decodes ASCII. *)
Definition strict_only : codec :=
  {| buffer_decode := fun input errors final =>
       match errors with
       | strict =>
           if forallb (fun b => b <? 128)%N input
           then Some (input, length input) else None
       | replace => None
       end |}.

(** A registry that knows three encodings. *)
Definition sample_registry (name : pystr) : option codec :=
  if bool_decide (name = lit "utf-8") then Some utf_8
  else if bool_decide (name = lit "latin-1") then Some latin_1
  else if bool_decide (name = lit "idna") then Some strict_only
  else None.

(** A child that prints [h\r\n] then the two halves of U+00E9 in separate
    reads on stdout, [oops] on stderr, and exits with the code that is the
    first character of the command minus ['0']; its pty ends as on Linux. *)
Definition sample_child (command : pystr) (use_pty : bool) : child_process :=
  {| stdout_reads := [[104; 13; 10; 195]; [169]]%N;
     stderr_reads := [[111; 111; 112; 115]]%N;
     pty_EIO := true;
     popen_returncode := Z.of_N (hd 48%N command) - 48;
     waitpid_status := (Z.of_N (hd 48%N command) - 48) * 256 |}.

Definition sample_env (windows isatty : bool) : environment :=
  {| WINDOWS := windows;
     stdin_isatty := isatty;
     getpreferredencoding := lit "utf-8";
     getincrementaldecoder := sample_registry;
     spawn := sample_child |}.

(** The defaults of a [Context()]: every option of [run]. *)
Definition default_config : gmap string value :=
  list_to_map
    [("warn", VBool false); ("hide", VNone); ("pty", VBool false);
     ("fallback", VBool true); ("echo", VBool false); ("encoding", VNone);
     ("out_stream", VNone); ("err_stream", VNone)].

(* ===================================================================== *)
(** ** Notions used to state the properties *)
(* ===================================================================== *)

(** What the merge loop stores for an option whose default is [val]: the
    caller's value unless it is absent or [None]. *)
Definition merged (kwargs : gmap string value) (key : string) (val : value)
    : value :=
  match kwargs !! key with
  | Some runtime => if is_None runtime then val else runtime
  | None => val
  end.

(** The pty-or-pipe decision as the specification words it: pty is used
    when it is requested, unless there is no interactive terminal and
    falling back is allowed. *)
Definition decidePtyUsage (E : environment) (requestedPty fallbackAllowed : value)
    : bool :=
  truthy requestedPty
  && negb (negb (stdin_isatty E) && truthy fallbackAllowed).

(** The call falls back from pty to pipes. *)
Definition falls_back (E : environment) (requestedPty fallbackAllowed : value)
    : bool :=
  truthy requestedPty && (negb (stdin_isatty E) && truthy fallbackAllowed).

(** The Result a failure or a normal return carries. *)
Definition result_of (x : exn + Result) : option Result :=
  match x with
  | inr r => Some r
  | inl (Failure r) => Some r
  | inl _ => None
  end.

Definition is_warning (ev : event) : bool :=
  match ev with EvWarning _ => true | _ => false end.

(** How many times the fallback warning was written. *)
Definition count_warnings (evs : list event) : nat :=
  length (List.filter is_warning evs).

(** The pty flags of the children started, in order. *)
Fixpoint spawned (evs : list event) : list bool :=
  match evs with
  | [] => []
  | EvSpawn _ use_pty :: rest => use_pty :: spawned rest
  | _ :: rest => spawned rest
  end.

(** The call [c] with the keyword argument [key=v] added (or replaced). *)
Definition with_kwarg (c : call) (key : string) (v : value) : call :=
  {| call_env := call_env c; call_command := call_command c;
     call_kwargs := <[key := v]> (call_kwargs c) |}.

(** The call [c] without the keyword argument [key]. *)
Definition without_kwarg (c : call) (key : string) : call :=
  {| call_env := call_env c; call_command := call_command c;
     call_kwargs := delete key (call_kwargs c) |}.

(** The options a call ends up with on the instance in state [s]. *)
Definition call_opts (c : call) (s : state) : gmap string value :=
  fst (normalize_kwargs (context_config_run (self s)) (call_kwargs c)).

(** [m] keeps the state invariant [I] and raises only exceptions in [P]. *)
Definition respects {A} (I : state -> Prop) (P : exn -> Prop) (m : M A)
    : Prop :=
  forall s, I s ->
    I (snd (m s)) /\
    match fst (m s) with
    | inl e => P e
    | inr _ => True
    end.

(** The chunks that [codecs.iterdecode] yields for a stream of reads under
    [errors='replace']. *)
Definition decoded (E : environment) (read_func : reader)
    (encoding : value) : list pystr :=
  match lookup_decoder E encoding with
  | None => []
  | Some c => fst (iterdecode c replace (get read_func))
  end.

(** The reader of a child's stdout: of the pty master when the child was
    forked under a pty, of the pipe otherwise. *)
Definition stdout_of (p : child_process) (used : bool) : reader :=
  if used then pty_reader p else pipe_reader (stdout_reads p).

(** The two [_mux] threads [run] starts on a [Local] instance, given the
    options it read and the pty decision [used]: the stdout thread, and
    the stderr thread, which exists in pipe mode only. *)
Definition out_thread (E : environment) (command : pystr) (used : bool)
    (o : value) (hide : list value) (enc : value) : thread :=
  Local_mux E (stdout_of (spawn E command used) used)
    (if is_None o then sys_stdout else o)
    (py_in (VStr (lit "out")) hide)
    (if is_None enc then VStr (getpreferredencoding E) else enc).

Definition err_thread (E : environment) (command : pystr) (used : bool)
    (e : value) (hide : list value) (enc : value) : thread :=
  if used then no_thread
  else Local_mux E (pipe_reader (stderr_reads (spawn E command used)))
         (if is_None e then sys_stderr else e)
         (py_in (VStr (lit "err")) hide)
         (if is_None enc then VStr (getpreferredencoding E) else enc).

(** The newline treatment of [run]: the two [replace] calls on Windows,
    nothing elsewhere. *)
Definition newlines (E : environment) (text : pystr) : pystr :=
  if WINDOWS E
  then str_replace (str_replace text [CR; LF] [LF]) [CR] [LF]
  else text.

(** The exit code [returncode()] reports for a child. *)
Definition exit_code (used : bool) (p : child_process) : Z :=
  if used then WEXITSTATUS (waitpid_status p) else popen_returncode p.

(** Every exception but [Failure]. *)
Definition not_Failure (e : exn) : Prop :=
  match e with
  | Failure _ => False
  | _ => True
  end.

(** Calls used as examples: a command that exits with code 1, with the
    default options; and a command that exits with code 0 under [pty=True]
    and a given [fallback]. *)
Definition failing_call : call :=
  {| call_env := sample_env false true;
     call_command := lit "1";
     call_kwargs := ∅ |}.

Definition pty_call (windows isatty : bool) (fallback : value) : call :=
  {| call_env := sample_env windows isatty;
     call_command := lit "0";
     call_kwargs := <["pty" := VBool true]> (<["fallback" := fallback]> ∅) |}.

(** At most one warning was written, and none while the flag is unset. *)
Definition warned_once (s : state) : Prop :=
  (count_warnings (log s)
   <= if warned_about_pty_fallback (self s) then 1 else 0)%nat.

(** The flag is set and [n] warnings were written. *)
Definition warned_already (n : nat) (s : state) : Prop :=
  warned_about_pty_fallback (self s) = true /\ count_warnings (log s) = n.

(** The value of [out_stream] or [err_stream] is [None] or a file-like
    object. *)
Definition is_sink (v : value) : bool :=
  match v with
  | VNone | VStream _ => true
  | _ => false
  end.

(* ===================================================================== *)
(** ** Result.__str__ *)
(* ===================================================================== *)

(** [sep.join(parts)] *)
Fixpoint str_join (sep : pystr) (parts : list pystr) : pystr :=
  match parts with
  | [] => []
  | [part] => part
  | part :: rest => part ++ sep ++ str_join sep rest
  end.

(** [s.rstrip()]: [s] without its trailing whitespace.  Which characters
    are whitespace ([str.isspace]) is the interpreter's business and a
    parameter here. *)
Fixpoint rstrip (isspace : N -> bool) (s : pystr) : pystr :=
  match s with
  | [] => []
  | c :: s' =>
      match rstrip isspace s' with
      | [] => if isspace c then [] else [c]
      | t => c :: t
      end
  end.

(** ["{0}".format(n)] for an integer: its decimal digits, with a minus
    sign when negative. *)
Definition str_of_int (n : Z) : pystr :=
  lit (NilZero.string_of_int (Z.to_int n)).

(** One entry of [ret] in [Result.__str__]: the labelled section of the
    attribute [x] whose value is [val], or the marker of its absence. *)
Definition section_of (isspace : N -> bool) (x : pystr) (val : pystr)
    : pystr :=
  if nonempty val
  then lit "=== " ++ x ++ lit " ===" ++ [LF] ++ rstrip isspace val ++ [LF]
  else lit "(no " ++ x ++ lit ")".

(** [Result.__str__(self)] *)
Definition Result_str (isspace : N -> bool) (self : Result) : pystr :=
  let ret :=
    [lit "Command exited with status " ++ str_of_int (exited self)
       ++ lit "."] in
  let ret :=
    ret ++ List.map (fun x => section_of isspace (fst x) (snd x))
             [(lit "stdout", stdout self); (lit "stderr", stderr self)] in
  str_join [LF] ret.

(** The whitespace of ASCII text, for examples: tab, line feed, vertical
    tab, form feed, carriage return and space. *)
Definition ascii_isspace (c : N) : bool :=
  ((9 <=? c) && (c <=? 13) || (c =? 32))%N.

(* ===================================================================== *)
(** ** More notions used to state properties *)
(* ===================================================================== *)

(** The chunks that the [_mux] threads wrote to the sink called [dest],
    in order.  What [print], the fallback warning and a traceback put on
    [sys.stdout] and [sys.stderr] are other events. *)
Fixpoint written_to (dest : string) (evs : list event) : list pystr :=
  match evs with
  | [] => []
  | EvWrite d data :: rest =>
      if bool_decide (d = dest) then data :: written_to dest rest
      else written_to dest rest
  | _ :: rest => written_to dest rest
  end.

(** What only a [_mux] thread does: a write to its sink, or its end by an
    exception. *)
Definition by_thread (ev : event) : bool :=
  match ev with
  | EvWrite _ _ | EvTraceback => true
  | _ => false
  end.

(** The name of the sink an [out_stream] or [err_stream] option stands
    for: the default when it is [None]. *)
Definition sink_name (dflt : string) (v : value) : string :=
  match v with
  | VStream name => name
  | _ => dflt
  end.

(** The first thing that goes wrong among the options [run] reads before
    it decides on a pty and starts the child: a missing option, or an
    invalid [hide]; [None] when they are all there. *)
Definition prestart_error (opts : gmap string value) : option exn :=
  match opts !! "hide" with
  | None => Some (KeyError "hide")
  | Some h =>
      match normalize_hide h with
      | inl e => Some e
      | inr _ =>
          match opts !! "out_stream" with
          | None => Some (KeyError "out_stream")
          | Some _ =>
              match opts !! "err_stream" with
              | None => Some (KeyError "err_stream")
              | Some _ =>
                  match opts !! "echo" with
                  | None => Some (KeyError "echo")
                  | Some _ =>
                      match opts !! "pty" with
                      | None => Some (KeyError "pty")
                      | Some _ =>
                          match opts !! "fallback" with
                          | None => Some (KeyError "fallback")
                          | Some _ => None
                          end
                      end
                  end
              end
          end
      end
  end.

(** What [run] has printed when it stops before the child is started:
    the echo of the command, if [echo] was read and is true. *)
Definition prestart_log (opts : gmap string value) (command : pystr)
    : list event :=
  match opts !! "hide" with
  | Some h =>
      match normalize_hide h, opts !! "out_stream", opts !! "err_stream",
            opts !! "echo" with
      | inr _, Some _, Some _, Some echo =>
          if truthy echo then [EvPrint (echo_text command)] else []
      | _, _, _, _ => []
      end
  | None => []
  end.

(** A call on the base class. *)
Definition Runner_run (E : environment) (command : pystr)
    (kwargs : gmap string value) : M Result :=
  run BaseRunner E command kwargs.

(** A child whose wait status is [9]: killed by signal 9. *)
Definition killed_child (command : pystr) (use_pty : bool) : child_process :=
  {| stdout_reads := [[104]]%N;
     stderr_reads := [];
     pty_EIO := true;
     popen_returncode := -9;
     waitpid_status := 9 |}.

Definition killed_env : environment :=
  {| WINDOWS := false;
     stdin_isatty := true;
     getpreferredencoding := lit "utf-8";
     getincrementaldecoder := sample_registry;
     spawn := killed_child |}.

(* ===================================================================== *)
(** * Properties *)
(* ===================================================================== *)

(** ** Result *)

Lemma ok_iff (r : Result) : ok r = true <-> exited r = 0.
Proof. unfold ok. apply Z.eqb_eq. Qed.

Lemma failed_iff (r : Result) : failed r = true <-> exited r <> 0.
Proof.
  unfold failed. rewrite negb_true_iff, <- not_true_iff_false, ok_iff.
  reflexivity.
Qed.

(** C2: for every Result, [ok] holds exactly when [exited] is 0, [failed]
    is the negation of [ok], the truth value of the Result is [ok]; and a
    Result built by [__init__] has [return_code] equal to [exited], the
    exit code it was given. *)
Theorem Result_truth_value :
  (forall r : Result,
      (ok r = true <-> exited r = 0) /\
      (failed r = true <-> exited r <> 0) /\
      failed r = negb (ok r) /\
      Result_bool r = ok r /\
      Result_nonzero r = ok r) /\
  (forall (out err : pystr) (code : Z) (p x : value),
      let r := Result_init out err code p x in
      exited r = code /\ return_code r = exited r).
Proof.
  split.
  - intros r. split; [apply ok_iff|]. split; [apply failed_iff|].
    repeat split.
  - intros. split; reflexivity.
Qed.

(** ** normalize_hide *)

(** Membership in the vocabulary tuple is by [==]: besides the eight
    values themselves it accepts the integers equal to a boolean. *)
Lemma py_in_hide_vals (v : value) :
  py_in v hide_vals = true <-> In v hide_vals \/ v = VInt 0 \/ v = VInt 1.
Proof.
  unfold py_in, hide_vals. split.
  - intros H. apply existsb_exists in H as (w & Hw & Heq).
    simpl in Hw.
    destruct v as [|b|n|s|nm];
      repeat (destruct Hw as [<-|Hw]; [simpl in Heq; try discriminate|]);
      try (destruct Hw).
    all: try (left; simpl; tauto).
    all: try (destruct b; simpl in *; try discriminate; left; simpl; tauto).
    all: try (apply Z.eqb_eq in Heq; subst; simpl; tauto).
    all: try (apply bool_decide_eq_true in Heq; subst; left; simpl; tauto).
  - intros [H|[->| ->]]; [|reflexivity..].
    simpl in H. repeat (destruct H as [<-|H]; [reflexivity|]). destruct H.
Qed.

(** C3, as stated, fails at the integer 0: it is none of the eight
    vocabulary values, and [normalize_hide] returns the empty tuple for it
    instead of raising. *)
Lemma normalize_hide_accepts_zero :
  ~ In (VInt 0) hide_vals /\ normalize_hide (VInt 0) = inr [].
Proof.
  split; [|reflexivity].
  simpl. intros H. repeat (destruct H as [H|H]; [discriminate H|]). exact H.
Qed.

(** ** The merge of keyword arguments and context defaults *)

Lemma normalize_kwargs_spec (config_run kwargs : gmap string value) :
  forall key,
    fst (normalize_kwargs config_run kwargs) !! key
      = merged kwargs key <$> config_run !! key /\
    snd (normalize_kwargs config_run kwargs) !! key
      = match config_run !! key with
        | Some _ => None
        | None => kwargs !! key
        end.
Proof.
  unfold normalize_kwargs.
  apply (map_fold_weak_ind
    (fun (r : gmap string value * gmap string value)
         (m : gmap string value) =>
       forall key,
         fst r !! key = merged kwargs key <$> m !! key /\
         snd r !! key = match m !! key with
                        | Some _ => None
                        | None => kwargs !! key
                        end)).
  - intros key. simpl. rewrite !lookup_empty. done.
  - intros i x m [opts kw] Hi IH key. simpl.
    destruct (decide (i = key)) as [->|Hne].
    + rewrite !lookup_insert_eq, lookup_delete_eq. simpl. split; [|done].
      destruct (IH key) as [_ Hk]. rewrite Hi in Hk. simpl in Hk.
      unfold merged. rewrite Hk.
      destruct (kwargs !! key); done.
    + rewrite !lookup_insert_ne, lookup_delete_ne by done. apply IH.
Qed.

Lemma opts_lookup (config_run kwargs : gmap string value) (key : string) :
  fst (normalize_kwargs config_run kwargs) !! key
    = merged kwargs key <$> config_run !! key.
Proof. apply normalize_kwargs_spec. Qed.

Lemma merged_None_delete (kwargs : gmap string value) (key k : string)
    (val : value) :
  kwargs !! key = Some VNone ->
  merged kwargs k val = merged (delete key kwargs) k val.
Proof.
  intros H. unfold merged. destruct (decide (key = k)) as [->|Hne].
  - rewrite H, lookup_delete_eq. reflexivity.
  - rewrite lookup_delete_ne by done. reflexivity.
Qed.

Lemma opts_None_delete (config_run kwargs : gmap string value)
    (key : string) :
  kwargs !! key = Some VNone ->
  fst (normalize_kwargs config_run kwargs)
    = fst (normalize_kwargs config_run (delete key kwargs)).
Proof.
  intros H. apply map_eq. intros k. rewrite !opts_lookup.
  destruct (config_run !! k); simpl; [|done].
  f_equal. by apply merged_None_delete.
Qed.

(** C10: a keyword argument passed as [None] is the same as one left out:
    the merged options are equal, hence so is the whole call; the context
    default of the option is kept, while a value other than [None]
    ([False], [0], [''] included) replaces the default. *)
Theorem None_kwarg_is_omitted :
  (forall (config_run kwargs : gmap string value) (key : string),
      kwargs !! key = Some VNone ->
      fst (normalize_kwargs config_run kwargs)
        = fst (normalize_kwargs config_run (delete key kwargs))) /\
  (forall (c : call) (key : string) (s : state),
      call_kwargs c !! key = Some VNone ->
      Local_run c s = Local_run (without_kwarg c key) s) /\
  (forall (config_run kwargs : gmap string value) (key : string)
          (dflt : value),
      config_run !! key = Some dflt ->
      kwargs !! key = Some VNone ->
      fst (normalize_kwargs config_run kwargs) !! key = Some dflt) /\
  (forall (config_run kwargs : gmap string value) (key : string)
          (dflt v : value),
      config_run !! key = Some dflt ->
      kwargs !! key = Some v ->
      v <> VNone ->
      fst (normalize_kwargs config_run kwargs) !! key = Some v) /\
  (forall (config_run kwargs : gmap string value) (key : string)
          (dflt v : value),
      config_run !! key = Some dflt ->
      v = VBool false \/ v = VInt 0 \/ v = VStr [] ->
      fst (normalize_kwargs config_run (<[key := v]> kwargs)) !! key
        = Some v).
Proof.
  split; [exact opts_None_delete|].
  split.
  { intros c key s H. unfold Local_run, run, without_kwarg. simpl.
    unfold bind, get_self.
    rewrite (opts_None_delete _ _ key H). reflexivity. }
  split.
  { intros cfg kw key dflt Hc Hk. rewrite opts_lookup, Hc. simpl.
    unfold merged. rewrite Hk. reflexivity. }
  split.
  { intros cfg kw key dflt v Hc Hk Hv. rewrite opts_lookup, Hc. simpl.
    unfold merged. rewrite Hk. destruct v; simpl; congruence. }
  intros cfg kw key dflt v Hc Hv. rewrite opts_lookup, Hc. simpl.
  unfold merged. rewrite lookup_insert_eq.
  destruct Hv as [->|[->| ->]]; reflexivity.
Qed.

(** At the configuration of a [Context()]: [hide=None] is as good as no
    [hide]; it keeps the default of [hide]; and [warn=0] replaces the
    default of [warn]. *)
Lemma None_kwarg_is_omitted_witness :
  let kwargs : gmap string value := <["hide" := VNone]> ∅ in
  let c := {| call_env := sample_env false true; call_command := lit "0";
              call_kwargs := kwargs |} in
  fst (normalize_kwargs default_config kwargs)
    = fst (normalize_kwargs default_config (delete "hide" kwargs)) /\
  Local_run c (initial_state default_config)
    = Local_run (without_kwarg c "hide") (initial_state default_config) /\
  fst (normalize_kwargs default_config kwargs) !! "hide" = Some VNone /\
  fst (normalize_kwargs default_config (<["warn" := VInt 0]> ∅)) !! "warn"
    = Some (VInt 0) /\
  fst (normalize_kwargs default_config (<["echo" := VStr []]> kwargs))
    !! "echo" = Some (VStr []).
Proof.
  intros kwargs c.
  pose proof None_kwarg_is_omitted as (H1 & H2 & H3 & H4 & H5).
  split; [apply H1, lookup_insert_eq|].
  split; [apply H2, lookup_insert_eq|].
  split; [apply H3; [reflexivity | apply lookup_insert_eq]|].
  split.
  - apply (H4 default_config _ "warn" (VBool false) (VInt 0));
      [reflexivity | apply lookup_insert_eq | discriminate].
  - apply (H5 default_config kwargs "echo" (VBool false));
      [reflexivity | right; right; reflexivity].
Defined.

(** ** The pty-or-pipe decision *)

Lemma Local_should_use_pty_eq (E : environment) (p f : value) (s : state) :
  exists s',
    Local_should_use_pty E p f s = (inr (VBool (decidePtyUsage E p f)), s') /\
    context_config_run (self s') = context_config_run (self s) /\
    using_pty (self s') = using_pty (self s) /\
    process (self s') = process (self s) /\
    parent_fd (self s') = parent_fd (self s) /\
    status (self s') = status (self s) /\
    warned_about_pty_fallback (self s')
      = warned_about_pty_fallback (self s) || falls_back E p f /\
    log s' = log s ++
             (if falls_back E p f && negb (warned_about_pty_fallback (self s))
              then [EvWarning pty_fallback_warning] else []).
Proof.
  unfold Local_should_use_pty, decidePtyUsage, falls_back.
  destruct s as [[cfg warned up pr fd st] lg].
  destruct (truthy p), (stdin_isatty E), (truthy f), warned; simpl;
    eexists; (split; [reflexivity|]); simpl;
    rewrite ?app_nil_r; repeat split; reflexivity.
Qed.

(** C6: the base policy returns the requested flag as it is; the local
    policy always returns (it never raises) the decision [decidePtyUsage]:
    false when pty was not requested; when it was, false exactly when
    there is no interactive terminal and fallback is allowed, so true, in
    particular, without a terminal when fallback is not allowed. *)
Theorem pty_decision :
  (forall (p f : value) (s : state),
      Runner_should_use_pty p f s = (inr p, s)) /\
  (forall (E : environment) (p f : value) (s : state),
      exists s',
        Local_should_use_pty E p f s
          = (inr (VBool (decidePtyUsage E p f)), s')) /\
  (forall (E : environment) (p f : value),
      truthy p = false -> decidePtyUsage E p f = false) /\
  (forall (E : environment) (p f : value),
      truthy p = true ->
      (decidePtyUsage E p f = false
         <-> stdin_isatty E = false /\ truthy f = true)) /\
  (forall (E : environment) (p f : value),
      truthy p = true -> stdin_isatty E = false -> truthy f = false ->
      decidePtyUsage E p f = true).
Proof.
  split; [reflexivity|].
  split.
  { intros E p f s. destruct (Local_should_use_pty_eq E p f s) as (s' & H & _).
    eauto. }
  unfold decidePtyUsage.
  split; [intros E p f ->; reflexivity|].
  split.
  - intros E p f ->. destruct (stdin_isatty E), (truthy f); simpl; intuition congruence.
  - intros E p f -> -> ->. reflexivity.
Qed.

(** Without a terminal: [pty=True] falls back to pipes by default, and is
    kept with [fallback=False]. *)
Lemma pty_decision_witness :
  decidePtyUsage (sample_env false false) (VBool true) (VBool true) = false /\
  decidePtyUsage (sample_env false false) (VBool true) (VBool false) = true /\
  decidePtyUsage (sample_env false true) (VBool false) (VBool true) = false.
Proof.
  split; [|split].
  - apply (proj1 (proj2 (proj2 (proj2 pty_decision))));
      [reflexivity | split; reflexivity].
  - apply (proj2 (proj2 (proj2 (proj2 pty_decision)))); reflexivity.
  - apply (proj1 (proj2 (proj2 pty_decision))); reflexivity.
Defined.

(** ** Reasoning about methods: invariants and exceptions *)

Lemma bind_inr {A B} (m : M A) (k : A -> M B) (s s' : state) (b : B) :
  bind m k s = (inr b, s') ->
  exists a s1, m s = (inr a, s1) /\ k a s1 = (inr b, s').
Proof.
  unfold bind. destruct (m s) as [[e|a] s1]; [discriminate|]. eauto.
Qed.

Lemma count_warnings_app (l1 l2 : list event) :
  count_warnings (l1 ++ l2) = (count_warnings l1 + count_warnings l2)%nat.
Proof. unfold count_warnings. rewrite List.filter_app, length_app. reflexivity. Qed.

Lemma writes_no_warning (ws : list (string * pystr)) :
  count_warnings (List.map (fun w => EvWrite (fst w) (snd w)) ws) = O.
Proof. induction ws as [|w ws IH]; [reflexivity | exact IH]. Qed.

Lemma thread_events_no_warning (t : thread) :
  count_warnings (thread_events t) = O.
Proof.
  unfold thread_events. rewrite count_warnings_app, writes_no_warning.
  destruct (finished t); reflexivity.
Qed.

Section Respects.
Variable I : state -> Prop.
Variable P : exn -> Prop.

Hypothesis I_emit : forall s evs,
  count_warnings evs = O -> I s ->
  I {| self := self s; log := log s ++ evs |}.
Hypothesis I_modify : forall s f,
  warned_about_pty_fallback (f (self s)) = warned_about_pty_fallback (self s) ->
  I s -> I {| self := f (self s); log := log s |}.
Hypothesis I_decision : forall E p f s,
  I s -> I (snd (Local_should_use_pty E p f s)).
Hypothesis P_KeyError : forall key, P (KeyError key).
Hypothesis P_AttributeError : forall name, P (AttributeError name).
Hypothesis P_ValueError : forall t a b, P (ValueError t a b).

Lemma respects_ret {A} (a : A) : respects I P (ret a).
Proof. intros s Hs. simpl. auto. Qed.

Lemma respects_raise {A} (e : exn) : P e -> respects I P (@raise A e).
Proof. intros He s Hs. simpl. auto. Qed.

Lemma respects_bind {A B} (m : M A) (k : A -> M B) :
  respects I P m -> (forall a, respects I P (k a)) ->
  respects I P (bind m k).
Proof.
  intros Hm Hk s Hs. unfold bind. destruct (Hm s Hs) as [H1 H2].
  destruct (m s) as [[e|a] s1]; simpl in *; [auto|].
  apply Hk. exact H1.
Qed.

Lemma respects_get_self : respects I P get_self.
Proof. intros s Hs. simpl. auto. Qed.

Lemma respects_getitem d key : respects I P (getitem d key).
Proof.
  unfold getitem. destruct (d !! key);
    [apply respects_ret | apply respects_raise, P_KeyError].
Qed.

Lemma respects_getattr {A} name (field : Runner -> option A) :
  respects I P (getattr name field).
Proof.
  unfold getattr. apply respects_bind; [apply respects_get_self|].
  intros r. destruct (field r);
    [apply respects_ret | apply respects_raise, P_AttributeError].
Qed.

Lemma respects_normalize_hide h : respects I P (lift (normalize_hide h)).
Proof.
  unfold normalize_hide.
  destruct (negb _); simpl;
    [apply respects_raise, P_ValueError | apply respects_ret].
Qed.

Lemma respects_emit evs : count_warnings evs = O -> respects I P (emit evs).
Proof. intros H s Hs. simpl. auto. Qed.

Lemma respects_modify f :
  (forall r, warned_about_pty_fallback (f r) = warned_about_pty_fallback r) ->
  respects I P (modify f).
Proof. intros H s Hs. simpl. auto. Qed.

Lemma respects_Local_should_use_pty E p f :
  respects I P (Local_should_use_pty E p f).
Proof.
  intros s Hs. split; [auto|].
  destruct (Local_should_use_pty_eq E p f s) as (s' & -> & _). exact Logic.I.
Qed.

Ltac respects_step :=
  first
    [ apply respects_ret
    | apply respects_getitem
    | apply respects_getattr
    | apply respects_normalize_hide
    | apply respects_Local_should_use_pty
    | apply respects_emit;
      rewrite ?count_warnings_app, ?thread_events_no_warning; reflexivity
    | apply respects_modify; intros; reflexivity
    | apply respects_get_self
    | apply respects_bind; [|intros]
    | match goal with
      | |- respects _ _ (if ?b then _ else _) => destruct b
      end ].

Lemma respects_Local_start E command : respects I P (Local_start E command).
Proof.
  unfold Local_start, set_parent_fd, set_process. repeat respects_step.
Qed.

Lemma respects_Local_wait : respects I P Local_wait.
Proof. unfold Local_wait, set_status. repeat respects_step. Qed.

Lemma respects_Local_returncode : respects I P Local_returncode.
Proof. unfold Local_returncode. repeat respects_step. Qed.

Lemma respects_Local_stdout_reader : respects I P Local_stdout_reader.
Proof. unfold Local_stdout_reader. repeat respects_step. Qed.

Lemma respects_Local_stderr_reader : respects I P Local_stderr_reader.
Proof. unfold Local_stderr_reader. repeat respects_step. Qed.

Lemma respects_execute E command opts :
  respects I P (execute (Local E) E command opts).
Proof.
  unfold execute, set_using_pty. simpl.
  repeat first
    [ apply respects_Local_start | apply respects_Local_wait
    | apply respects_Local_returncode | apply respects_Local_stdout_reader
    | apply respects_Local_stderr_reader | respects_step ].
Qed.

Lemma respects_raise_or_return opts r :
  (forall r, P (Failure r)) -> respects I P (raise_or_return opts r).
Proof.
  intros HF. unfold raise_or_return.
  repeat first [ apply respects_raise, HF | respects_step ].
Qed.

Lemma respects_Local_run c :
  (forall r, P (Failure r)) -> respects I P (Local_run c).
Proof.
  intros HF. unfold Local_run, run.
  apply respects_bind; [apply respects_get_self|]. intros r.
  apply respects_bind; [apply respects_execute|]. intros res.
  apply respects_raise_or_return, HF.
Qed.
End Respects.

(** ** The closed form of a successful execution on a [Local] instance *)

Lemma Local_execute_eq E command opts s h hide o e echo p f enc :
  opts !! "hide" = Some h -> normalize_hide h = inr hide ->
  opts !! "out_stream" = Some o -> opts !! "err_stream" = Some e ->
  opts !! "echo" = Some echo -> opts !! "pty" = Some p ->
  opts !! "fallback" = Some f -> opts !! "encoding" = Some enc ->
  let used := decidePtyUsage E p f in
  let t_out := out_thread E command used o hide enc in
  let t_err := err_thread E command used e hide enc in
  exists s',
    execute (Local E) E command opts s =
      (inr (Result_init (newlines E (join (captured t_out)))
              (newlines E (join (captured t_err)))
              (exit_code used (spawn E command used))
              (VBool used) (VBool false)), s') /\
    context_config_run (self s') = context_config_run (self s) /\
    warned_about_pty_fallback (self s')
      = warned_about_pty_fallback (self s) || falls_back E p f /\
    using_pty (self s') = Some (VBool used) /\
    log s' = log s ++
      (if truthy echo then [EvPrint (echo_text command)] else []) ++
      (if falls_back E p f && negb (warned_about_pty_fallback (self s))
       then [EvWarning pty_fallback_warning] else []) ++
      [EvSpawn command used] ++
      thread_events t_out ++ thread_events t_err.
Proof.
  intros Hh Hn Ho He Hecho Hp Hf Henc.
  unfold execute, getitem, bind, lift.
  rewrite Hh; unfold ret at 1. rewrite Hn; unfold ret at 1.
  rewrite Ho; unfold ret at 1. rewrite He; unfold ret at 1.
  rewrite Hecho; unfold ret at 1. rewrite Hp, Hf, Henc.
  unfold out_thread, err_thread, exit_code, decidePtyUsage, falls_back, newlines.
  destruct s as [[cfg warned up pr fd st] lg].
  cbv [should_use_pty start wait returncode stdout_reader stderr_reader _mux
       Local Local_should_use_pty Local_start Local_wait Local_returncode
       Local_stdout_reader Local_stderr_reader
       bind ret raise emit get_self modify getattr
       set_warned_about_pty_fallback set_using_pty set_process set_parent_fd
       set_status
       self log using_pty process parent_fd status warned_about_pty_fallback
       context_config_run].
  destruct (truthy echo), (truthy p), (stdin_isatty E), (truthy f), warned;
    cbv [truthy negb andb orb];
    (eexists; split; [reflexivity|]);
    cbv [self log using_pty process parent_fd status
         warned_about_pty_fallback context_config_run];
    rewrite <- ?app_assoc, ?app_nil_r; repeat split; reflexivity.
Qed.

Lemma getitem_inr d key s v s1 :
  getitem d key s = (inr v, s1) -> d !! key = Some v.
Proof.
  unfold getitem. destruct (d !! key); [|discriminate].
  intros [= -> _]. reflexivity.
Qed.

Lemma lift_inr {A} (x : exn + A) s a s1 :
  lift x s = (inr a, s1) -> x = inr a.
Proof. destruct x; [discriminate|]. intros [= -> _]. reflexivity. Qed.

(** An execution that returns has found every option it reads. *)
Lemma Local_execute_reads C E command opts s r s' :
  execute C E command opts s = (inr r, s') ->
  exists h hide o e echo p f enc,
    opts !! "hide" = Some h /\ normalize_hide h = inr hide /\
    opts !! "out_stream" = Some o /\ opts !! "err_stream" = Some e /\
    opts !! "echo" = Some echo /\ opts !! "pty" = Some p /\
    opts !! "fallback" = Some f /\ opts !! "encoding" = Some enc.
Proof.
  intros H. unfold execute in H.
  apply bind_inr in H as (h & s1 & Hh & H). apply getitem_inr in Hh.
  apply bind_inr in H as (hide & s2 & Hn & H). apply lift_inr in Hn.
  apply bind_inr in H as (o & s3 & Ho & H). apply getitem_inr in Ho.
  apply bind_inr in H as (e & s4 & He & H). apply getitem_inr in He.
  apply bind_inr in H as (echo & s5 & Hecho & H). apply getitem_inr in Hecho.
  apply bind_inr in H as (? & s6 & _ & H).
  apply bind_inr in H as (p & s7 & Hp & H). apply getitem_inr in Hp.
  apply bind_inr in H as (f & s8 & Hf & H). apply getitem_inr in Hf.
  apply bind_inr in H as (? & s9 & _ & H).
  apply bind_inr in H as (? & s10 & _ & H).
  apply bind_inr in H as (? & s11 & _ & H).
  apply bind_inr in H as (enc & s12 & Henc & H). apply getitem_inr in Henc.
  exists h, hide, o, e, echo, p, f, enc. auto 10.
Qed.

(** [execute] does not read [opts['warn']]. *)
Lemma execute_ext C E command (opts opts' : gmap string value) :
  (forall key, key <> "warn" -> opts !! key = opts' !! key) ->
  execute C E command opts = execute C E command opts'.
Proof.
  intros H. unfold execute, getitem.
  rewrite (H "hide"), (H "out_stream"), (H "err_stream"), (H "echo"),
    (H "pty"), (H "fallback"), (H "encoding") by discriminate.
  reflexivity.
Qed.

(** Only the last step of [run] raises [Failure]. *)
Lemma execute_not_Failure E command opts s r s' :
  execute (Local E) E command opts s <> (inl (Failure r), s').
Proof.
  intros H.
  assert (R : respects (fun _ => True) not_Failure
                (execute (Local E) E command opts)).
  { apply respects_execute; simpl; auto. }
  destruct (R s Logic.I) as [_ HP]. rewrite H in HP. exact HP.
Qed.

(** ** The last step: return, or raise as failure *)

Lemma raise_or_return_eq (opts : gmap string value) (r : Result) (s : state) :
  raise_or_return opts r s =
    (if exited r =? 0 then inr r
     else match opts !! "warn" with
          | None => inl (KeyError "warn")
          | Some w => if truthy w then inr r else inl (Failure r)
          end, s).
Proof.
  unfold raise_or_return, bind, getitem, Result_bool, Result_nonzero.
  destruct (exited r =? 0); [reflexivity|].
  destruct (opts !! "warn") as [w|]; [|reflexivity].
  simpl. destruct (truthy w); reflexivity.
Qed.

Lemma Local_run_eq (c : call) (s : state) :
  Local_run c s =
    match execute (Local (call_env c)) (call_env c) (call_command c)
            (call_opts c s) s with
    | (inl e, s1) => (inl e, s1)
    | (inr r, s1) => raise_or_return (call_opts c s) r s1
    end.
Proof. reflexivity. Qed.

(** A call that returns a Result, or raises it, has executed the command
    up to that Result. *)
Lemma Local_run_executed (c : call) (s s' : state) (x : exn + Result)
    (r : Result) :
  Local_run c s = (x, s') -> result_of x = Some r ->
  execute (Local (call_env c)) (call_env c) (call_command c)
    (call_opts c s) s = (inr r, s').
Proof.
  rewrite Local_run_eq.
  destruct (execute _ _ _ _ s) as [[e|r0] s1] eqn:Hex.
  - intros [= <- <-] Hr. destruct e; try discriminate Hr.
    exfalso. exact (execute_not_Failure _ _ _ _ _ _ Hex).
  - rewrite raise_or_return_eq. intros [= <- <-] Hr. f_equal. f_equal.
    destruct (exited r0 =? 0); [simpl in Hr; congruence|].
    destruct (call_opts c s !! "warn") as [w|]; [|discriminate Hr].
    destruct (truthy w); simpl in Hr; congruence.
Qed.

Lemma call_opts_with_warn (c : call) (s : state) (v w : value) :
  call_opts c s !! "warn" = Some w -> v <> VNone ->
  call_opts (with_kwarg c "warn" v) s !! "warn" = Some v /\
  forall key, key <> "warn" ->
    call_opts (with_kwarg c "warn" v) s !! key = call_opts c s !! key.
Proof.
  unfold call_opts, with_kwarg. simpl. rewrite !opts_lookup. intros Hw Hv.
  split.
  - destruct (context_config_run (self s) !! "warn"); [|discriminate Hw].
    simpl. unfold merged. rewrite lookup_insert_eq.
    destruct v; simpl; congruence.
  - intros key Hk. rewrite !opts_lookup. unfold merged.
    rewrite lookup_insert_ne by congruence. reflexivity.
Qed.

(** C1: [run] raises [Failure] carrying the constructed Result exactly
    when the command was executed, its exit code is not zero and [warn] is
    false; it returns the Result exactly when the command was executed and
    the exit code is zero or [warn] is true; and the Result a failure
    carries is the one the same call returns under [warn=True]. *)
Theorem run_raises_Failure_iff (c : call) (s s' : state) (r : Result) :
  let opts := call_opts c s in
  let executed :=
    execute (Local (call_env c)) (call_env c) (call_command c) opts s
      = (inr r, s') in
  (Local_run c s = (inl (Failure r), s')
     <-> executed /\ exited r <> 0 /\
         exists w, opts !! "warn" = Some w /\ truthy w = false) /\
  (Local_run c s = (inr r, s')
     <-> executed /\
         (exited r = 0 \/ exists w, opts !! "warn" = Some w /\ truthy w = true)) /\
  (Local_run c s = (inl (Failure r), s') ->
     Local_run (with_kwarg c "warn" (VBool true)) s = (inr r, s')).
Proof.
  intros opts executed.
  assert (HF : Local_run c s = (inl (Failure r), s')
     <-> executed /\ exited r <> 0 /\
         exists w, opts !! "warn" = Some w /\ truthy w = false).
  { split.
    - intros H. pose proof (Local_run_executed _ _ _ _ r H eq_refl) as Hex.
      split; [exact Hex|]. fold opts in Hex.
      rewrite Local_run_eq in H. fold opts in H. rewrite Hex in H.
      rewrite raise_or_return_eq in H.
      destruct (exited r =? 0) eqn:Hz; [discriminate H|].
      apply Z.eqb_neq in Hz. split; [exact Hz|].
      destruct (opts !! "warn") as [w|]; [|discriminate H].
      exists w. split; [reflexivity|]. destruct (truthy w); congruence.
    - intros (Hex & Hz & w & Hw & Ht). rewrite Local_run_eq. fold opts.
      unfold executed in Hex. rewrite Hex, raise_or_return_eq, Hw, Ht.
      apply Z.eqb_neq in Hz. rewrite Hz. reflexivity. }
  split; [exact HF|]. split.
  - split.
    + intros H. pose proof (Local_run_executed _ _ _ _ r H eq_refl) as Hex.
      split; [exact Hex|]. fold opts in Hex.
      rewrite Local_run_eq in H. fold opts in H. rewrite Hex in H.
      rewrite raise_or_return_eq in H.
      destruct (exited r =? 0) eqn:Hz; [left; apply Z.eqb_eq, Hz|].
      destruct (opts !! "warn") as [w|]; [|discriminate H].
      right. exists w. split; [reflexivity|]. destruct (truthy w); congruence.
    + intros (Hex & Hc). rewrite Local_run_eq. fold opts.
      unfold executed in Hex. rewrite Hex, raise_or_return_eq.
      destruct Hc as [Hz|(w & Hw & Ht)].
      * apply Z.eqb_eq in Hz. rewrite Hz. reflexivity.
      * rewrite Hw, Ht. destruct (exited r =? 0); reflexivity.
  - intros H. apply HF in H as (Hex & _ & w & Hw & _).
    destruct (call_opts_with_warn c s (VBool true) w Hw) as [Hw' Hext];
      [discriminate|].
    rewrite Local_run_eq. simpl call_env. simpl call_command.
    rewrite (execute_ext _ _ _ _ opts) by exact Hext.
    unfold executed in Hex. rewrite Hex, raise_or_return_eq, Hw'. simpl.
    destruct (exited r =? 0); reflexivity.
Qed.

(** A command that exits with 1: a failure by default, the same Result
    returned under [warn=True]. *)
Lemma run_raises_Failure_iff_witness :
  let s := initial_state default_config in
  let r := Result_init [104; 13; 10; 233]%N [111; 111; 112; 115]%N 1
             (VBool false) (VBool false) in
  Local_run failing_call s = (inl (Failure r), snd (Local_run failing_call s)) /\
  Local_run (with_kwarg failing_call "warn" (VBool true)) s
    = (inr r, snd (Local_run failing_call s)).
Proof.
  intros s r. split; [vm_compute; reflexivity|].
  apply (proj2 (proj2 (run_raises_Failure_iff failing_call s _ r))).
  vm_compute; reflexivity.
Defined.

(** ** Pty mode and the Result *)

(** A child that exited with code 1 has wait status [0x0100]. *)
Example WEXITSTATUS_exit_1 : WEXITSTATUS 256 = 1.
Proof. reflexivity. Qed.


Lemma spawned_app (l1 l2 : list event) :
  spawned (l1 ++ l2) = spawned l1 ++ spawned l2.
Proof.
  induction l1 as [|ev l1 IH]; [reflexivity|].
  destruct ev; simpl; rewrite IH; reflexivity.
Qed.

Lemma spawned_writes (ws : list (string * pystr)) :
  spawned (List.map (fun w => EvWrite (fst w) (snd w)) ws) = [].
Proof. induction ws as [|w ws IH]; [reflexivity | exact IH]. Qed.

Lemma spawned_thread_events (t : thread) : spawned (thread_events t) = [].
Proof.
  unfold thread_events. rewrite spawned_app, spawned_writes.
  destruct (finished t); reflexivity.
Qed.

(** What a call that yields a Result has done, in terms of the options it
    read. *)
Lemma Local_run_result (c : call) (s s' : state) (x : exn + Result)
    (r : Result) :
  Local_run c s = (x, s') -> result_of x = Some r ->
  let E := call_env c in
  let command := call_command c in
  let opts := call_opts c s in
  exists h hide o e echo p f enc,
    opts !! "hide" = Some h /\ normalize_hide h = inr hide /\
    opts !! "out_stream" = Some o /\ opts !! "err_stream" = Some e /\
    opts !! "echo" = Some echo /\ opts !! "pty" = Some p /\
    opts !! "fallback" = Some f /\ opts !! "encoding" = Some enc /\
    let used := decidePtyUsage E p f in
    let t_out := out_thread E command used o hide enc in
    let t_err := err_thread E command used e hide enc in
    r = Result_init (newlines E (join (captured t_out)))
          (newlines E (join (captured t_err)))
          (exit_code used (spawn E command used))
          (VBool used) (VBool false) /\
    context_config_run (self s') = context_config_run (self s) /\
    warned_about_pty_fallback (self s')
      = warned_about_pty_fallback (self s) || falls_back E p f /\
    using_pty (self s') = Some (VBool used) /\
    log s' = log s ++
      (if truthy echo then [EvPrint (echo_text command)] else []) ++
      (if falls_back E p f && negb (warned_about_pty_fallback (self s))
       then [EvWarning pty_fallback_warning] else []) ++
      [EvSpawn command used] ++
      thread_events t_out ++ thread_events t_err.
Proof.
  intros H Hr E command opts.
  pose proof (Local_run_executed _ _ _ _ _ H Hr) as Hex.
  destruct (Local_execute_reads _ _ _ _ _ _ _ Hex)
    as (h & hide & o & e & echo & p & f & enc
        & Hh & Hn & Ho & He & Hecho & Hp & Hf & Henc).
  exists h, hide, o, e, echo, p, f, enc.
  do 8 (split; [assumption|]).
  destruct (Local_execute_eq E command opts s _ _ _ _ _ _ _ _
              Hh Hn Ho He Hecho Hp Hf Henc) as (s1 & Heq & Hrest).
  fold E command opts in Hex. rewrite Heq in Hex.
  injection Hex as <- <-. split; [reflexivity | exact Hrest].
Qed.

(** C4: a call that yields a Result started exactly one child, in pty or
    in pipe mode; the Result's [pty] is that mode as a boolean, so true in
    pty mode and false in pipe mode; and in pty mode its [stderr] is the
    empty string. *)
Theorem pty_mode_result (c : call) (s s' : state) (x : exn + Result)
    (r : Result) :
  Local_run c s = (x, s') -> result_of x = Some r ->
  exists (used : bool) (evs : list event),
    log s' = log s ++ evs /\ spawned evs = [used] /\
    using_pty (self s') = Some (VBool used) /\
    pty r = VBool used /\
    (used = true -> stderr r = []).
Proof.
  intros H Hr.
  destruct (Local_run_result c s s' x r H Hr)
    as (h & hide & o & e & echo & p & f & enc
        & _ & _ & _ & _ & _ & _ & _ & _ & -> & _ & _ & Hu & Hlog).
  eexists _, _. split; [exact Hlog|].
  split.
  { rewrite !spawned_app, !spawned_thread_events.
    destruct (truthy echo), (falls_back _ p f && _); reflexivity. }
  split; [exact Hu|]. split; [reflexivity|].
  simpl. unfold err_thread. intros ->. unfold newlines.
  destruct (WINDOWS _); reflexivity.
Qed.

(** With a terminal and [pty=True]: pty mode, [stderr] empty. *)
Lemma pty_mode_result_witness :
  let c := pty_call false true (VBool true) in
  let s := initial_state default_config in
  let r := Result_init [104; 13; 10; 233]%N [] 0 (VBool true) (VBool false) in
  exists (used : bool) (evs : list event),
    log (snd (Local_run c s)) = log s ++ evs /\ spawned evs = [used] /\
    using_pty (self (snd (Local_run c s))) = Some (VBool used) /\
    pty r = VBool used /\
    (used = true -> stderr r = []).
Proof.
  intros c s r.
  apply (pty_mode_result c s (snd (Local_run c s)) (fst (Local_run c s)) r).
  - vm_compute; reflexivity.
  - vm_compute; reflexivity.
Defined.

(** ** Universal newlines *)

(** [str.replace] takes the leftmost occurrences, without overlap. *)
Example str_replace_leftmost :
  str_replace (lit "aXXXbXX") (lit "XX") (lit "y") = lit "ayXby".
Proof. vm_compute. reflexivity. Qed.

Example universal_newlines_mixed :
  universal_newlines [97; CR; LF; 98; CR; 99; LF; CR; CR; LF]%N
    = [97; LF; 98; LF; 99; LF; LF; LF]%N.
Proof. vm_compute. reflexivity. Qed.

Lemma replace_CR_map (s : pystr) :
  replace_from [CR] [LF] O s
    = List.map (fun c => if (c =? CR)%N then LF else c) s.
Proof.
  induction s as [|c s IH]; [reflexivity|].
  cbn [replace_from startswith length Nat.pred List.map app].
  rewrite IH, andb_true_r, N.eqb_sym.
  destruct (c =? CR)%N; reflexivity.
Qed.

Lemma replace_CRLF_cons (c : N) (s : pystr) :
  replace_from [CR; LF] [LF] O (c :: s)
    = if (c =? CR)%N && startswith s [LF]
      then LF :: replace_from [CR; LF] [LF] 1 s
      else c :: replace_from [CR; LF] [LF] O s.
Proof. cbn [replace_from startswith]. rewrite (N.eqb_sym CR c). reflexivity. Qed.

Lemma replace_CRLF_then_CR (s : pystr) :
  str_replace (str_replace s [CR; LF] [LF]) [CR] [LF]
    = universal_newlines s /\
  str_replace (str_replace (CR :: s) [CR; LF] [LF]) [CR] [LF]
    = LF :: universal_newlines_from true s.
Proof.
  unfold str_replace, universal_newlines. rewrite !replace_CR_map.
  induction s as [|c s [IH1 IH2]].
  - split; reflexivity.
  - assert (H1 : List.map (fun c => if (c =? CR)%N then LF else c)
                   (replace_from [CR; LF] [LF] O (c :: s))
                 = universal_newlines_from false (c :: s)).
    { destruct (c =? CR)%N eqn:Hc.
      - pose proof Hc as Hc'. apply N.eqb_eq in Hc'. subst c. rewrite IH2.
        reflexivity.
      - rewrite replace_CRLF_cons, Hc. cbn [andb List.map universal_newlines_from].
        rewrite Hc, IH1, andb_false_r. reflexivity. }
    split; [exact H1|].
    rewrite replace_CRLF_cons, N.eqb_refl.
    cbn [startswith andb universal_newlines_from].
    rewrite andb_true_r, (N.eqb_sym LF c), andb_true_r.
    destruct (c =? LF)%N eqn:Hl.
    + pose proof Hl as Hl'. apply N.eqb_eq in Hl'. subst c.
      cbn [replace_from List.map]. rewrite IH1. reflexivity.
    + cbn [List.map]. rewrite N.eqb_refl, H1.
      cbn [universal_newlines_from]. rewrite Hl. reflexivity.
Qed.

Lemma newlines_eq (E : environment) (text : pystr) :
  newlines E text = if WINDOWS E then universal_newlines text else text.
Proof.
  unfold newlines. destruct (WINDOWS E); [|reflexivity].
  apply replace_CRLF_then_CR.
Qed.

(** C8: the two captured strings of a Result are the concatenated chunks
    of the stdout and stderr threads, with universal newlines applied
    (every CR LF and every remaining CR turned into LF) when the platform
    is Windows, and unchanged on any other platform. *)
Theorem universal_newlines_iff_WINDOWS (c : call) (s s' : state)
    (x : exn + Result) (r : Result) :
  Local_run c s = (x, s') -> result_of x = Some r ->
  let E := call_env c in
  let command := call_command c in
  let opts := call_opts c s in
  exists h hide o e p f enc,
    opts !! "hide" = Some h /\ normalize_hide h = inr hide /\
    opts !! "out_stream" = Some o /\ opts !! "err_stream" = Some e /\
    opts !! "pty" = Some p /\ opts !! "fallback" = Some f /\
    opts !! "encoding" = Some enc /\
    let used := decidePtyUsage E p f in
    let raw_out := join (captured (out_thread E command used o hide enc)) in
    let raw_err := join (captured (err_thread E command used e hide enc)) in
    stdout r = (if WINDOWS E then universal_newlines raw_out else raw_out) /\
    stderr r = (if WINDOWS E then universal_newlines raw_err else raw_err).
Proof.
  intros H Hr E command opts.
  destruct (Local_run_result c s s' x r H Hr)
    as (h & hide & o & e & echo & p & f & enc
        & Hh & Hn & Ho & He & _ & Hp & Hf & Henc & -> & _).
  exists h, hide, o, e, p, f, enc. do 7 (split; [assumption|]).
  simpl. rewrite !newlines_eq. split; reflexivity.
Qed.

(** On Windows the child's [h\r\n] and U+00E9 come back as [h\n] and
    U+00E9. *)
Lemma universal_newlines_iff_WINDOWS_witness :
  let c := {| call_env := sample_env true true; call_command := lit "0";
              call_kwargs := ∅ |} in
  let s := initial_state default_config in
  let r := Result_init [104; 10; 233]%N [111; 111; 112; 115]%N 0
             (VBool false) (VBool false) in
  let E := call_env c in
  let command := call_command c in
  let opts := call_opts c s in
  exists h hide o e p f enc,
    opts !! "hide" = Some h /\ normalize_hide h = inr hide /\
    opts !! "out_stream" = Some o /\ opts !! "err_stream" = Some e /\
    opts !! "pty" = Some p /\ opts !! "fallback" = Some f /\
    opts !! "encoding" = Some enc /\
    let used := decidePtyUsage E p f in
    let raw_out := join (captured (out_thread E command used o hide enc)) in
    let raw_err := join (captured (err_thread E command used e hide enc)) in
    stdout r = (if WINDOWS E then universal_newlines raw_out else raw_out) /\
    stderr r = (if WINDOWS E then universal_newlines raw_err else raw_err).
Proof.
  intros c s r.
  apply (universal_newlines_iff_WINDOWS c s (snd (Local_run c s))
           (fst (Local_run c s)) r).
  - vm_compute; reflexivity.
  - vm_compute; reflexivity.
Defined.

(** ** normalize_hide, and when it is called *)

(** An invalid [hide] ends the call before anything else happens. *)
Lemma Local_run_invalid_hide (c : call) (s : state) (h : value) :
  call_opts c s !! "hide" = Some h ->
  py_in h hide_vals = false ->
  Local_run c s = (inl (ValueError hide_err h hide_vals), s).
Proof.
  intros Hh Hin. rewrite Local_run_eq.
  unfold execute, bind, getitem, lift, normalize_hide.
  rewrite Hh. unfold ret at 1. cbv beta iota. rewrite Hin. reflexivity.
Qed.

(** A value equal to [False], or to [True], is a member of the vocabulary
    tuple and is treated as that boolean. *)
Lemma normalize_hide_eq_bool (v : value) (b : bool) :
  py_eq v (VBool b) = true ->
  normalize_hide v
    = inr (if b then [VStr (lit "out"); VStr (lit "err")] else []).
Proof.
  destruct v as [|a|n|t|nm]; try discriminate.
  - destruct a, b; try discriminate; reflexivity.
  - cbn [py_eq]. intros H. apply Z.eqb_eq in H as ->.
    destruct b; reflexivity.
Qed.

(** C3 (as amended): [normalize_hide] maps [None] and [False] to the empty
    tuple, [True] and ['both'] to [('out', 'err')], ['stdout'] and
    ['out'] to [('out',)], ['stderr'] and ['err'] to [('err',)]; the test
    for the vocabulary is by [==], so a value equal to [False] or to
    [True], as the integers 0 and 1 are, is treated as that boolean; a
    value raises exactly when it equals none of the eight, the
    [ValueError] has the offending value and the vocabulary tuple as the
    arguments of its message, and inside [run] that happens before
    anything is printed or started. *)
Theorem normalize_hide_mapping :
  normalize_hide VNone = inr [] /\
  normalize_hide (VBool false) = inr [] /\
  normalize_hide (VBool true) = inr [VStr (lit "out"); VStr (lit "err")] /\
  normalize_hide (VStr (lit "both"))
    = inr [VStr (lit "out"); VStr (lit "err")] /\
  normalize_hide (VStr (lit "stdout")) = inr [VStr (lit "out")] /\
  normalize_hide (VStr (lit "out")) = inr [VStr (lit "out")] /\
  normalize_hide (VStr (lit "stderr")) = inr [VStr (lit "err")] /\
  normalize_hide (VStr (lit "err")) = inr [VStr (lit "err")] /\
  (forall v : value,
      py_eq v (VBool false) = true -> normalize_hide v = inr []) /\
  (forall v : value,
      py_eq v (VBool true) = true ->
      normalize_hide v = inr [VStr (lit "out"); VStr (lit "err")]) /\
  (forall v : value,
      py_in v hide_vals = false ->
      normalize_hide v = inl (ValueError hide_err v hide_vals)) /\
  (forall v : value,
      py_in v hide_vals = true -> exists hide, normalize_hide v = inr hide) /\
  (forall (c : call) (s : state) (h : value),
      call_opts c s !! "hide" = Some h ->
      py_in h hide_vals = false ->
      Local_run c s = (inl (ValueError hide_err h hide_vals), s)).
Proof.
  do 8 (split; [reflexivity|]).
  split; [intros v; apply (normalize_hide_eq_bool v false)|].
  split; [intros v; apply (normalize_hide_eq_bool v true)|].
  split; [intros v H; unfold normalize_hide; rewrite H; reflexivity|].
  split; [|exact Local_run_invalid_hide].
  intros v H. unfold normalize_hide. rewrite H. cbn [negb]. eauto.
Qed.

(** [hide='x'] is rejected, and [run(..., hide='x')] raises at once; the
    integers 0 and 1 are accepted as [False] and [True]. *)
Lemma normalize_hide_mapping_witness :
  let v := VStr (lit "x") in
  let c := with_kwarg failing_call "hide" v in
  let s := initial_state default_config in
  normalize_hide v = inl (ValueError hide_err v hide_vals) /\
  Local_run c s = (inl (ValueError hide_err v hide_vals), s) /\
  normalize_hide (VInt 0) = inr [] /\
  normalize_hide (VInt 1) = inr [VStr (lit "out"); VStr (lit "err")] /\
  (exists hide, normalize_hide (VStr (lit "stderr")) = inr hide).
Proof.
  intros v c s.
  pose proof normalize_hide_mapping
    as (_ & _ & _ & _ & _ & _ & _ & _ & Hf & Ht & Hv & Hin & Hrun).
  split; [apply Hv; vm_compute; reflexivity|].
  split; [apply Hrun; vm_compute; reflexivity|].
  split; [apply Hf; reflexivity|].
  split; [apply Ht; reflexivity|].
  apply Hin; vm_compute; reflexivity.
Defined.

(** ** The fallback warning *)

Lemma count_warnings_decision (E : environment) (p f : value) (s : state) :
  let s' := snd (Local_should_use_pty E p f s) in
  warned_about_pty_fallback (self s')
    = warned_about_pty_fallback (self s) || falls_back E p f /\
  count_warnings (log s')
    = (count_warnings (log s)
       + if falls_back E p f && negb (warned_about_pty_fallback (self s))
         then 1 else 0)%nat.
Proof.
  destruct (Local_should_use_pty_eq E p f s)
    as (s' & -> & _ & _ & _ & _ & _ & Hw & Hl).
  simpl. split; [exact Hw|]. rewrite Hl, count_warnings_app.
  destruct (falls_back E p f && _); reflexivity.
Qed.

Lemma Local_run_warned_once (c : call) (s : state) :
  warned_once s -> warned_once (snd (Local_run c s)).
Proof.
  intros Hs.
  apply (respects_Local_run warned_once (fun _ => True)); try (simpl; auto; fail);
    try exact Hs; unfold warned_once.
  - intros s0 evs Hevs H0. simpl. rewrite count_warnings_app, Hevs.
    rewrite Nat.add_0_r. exact H0.
  - intros s0 f Hf H0. simpl. rewrite Hf. exact H0.
  - intros E p f s0 H0.
    destruct (count_warnings_decision E p f s0) as [-> ->].
    destruct (warned_about_pty_fallback (self s0)), (falls_back E p f);
      simpl in *; lia.
Qed.

Lemma Local_run_warned_already (n : nat) (c : call) (s : state) :
  warned_already n s -> warned_already n (snd (Local_run c s)).
Proof.
  intros Hs.
  apply (respects_Local_run (warned_already n) (fun _ => True));
    try (simpl; auto; fail); try exact Hs; unfold warned_already.
  - intros s0 evs Hevs [H0 H1]. simpl. rewrite count_warnings_app, Hevs.
    split; [exact H0 | lia].
  - intros s0 f Hf [H0 H1]. simpl. rewrite Hf. auto.
  - intros E p f s0 [H0 H1].
    destruct (count_warnings_decision E p f s0) as [-> ->].
    rewrite H0, andb_false_r. simpl. split; [reflexivity | lia].
Qed.

Lemma run_all_warned_once (calls : list call) (s : state) :
  warned_once s -> warned_once (snd (run_all calls s)).
Proof.
  revert s. induction calls as [|c calls IH]; intros s Hs; [exact Hs|].
  simpl. pose proof (Local_run_warned_once c s Hs) as H1.
  destruct (Local_run c s) as [x s1]. simpl in H1.
  specialize (IH s1 H1). destruct (run_all calls s1) as [xs s2]. exact IH.
Qed.

Lemma run_all_warned_already (n : nat) (calls : list call) (s : state) :
  warned_already n s -> warned_already n (snd (run_all calls s)).
Proof.
  revert s. induction calls as [|c calls IH]; intros s Hs; [exact Hs|].
  simpl. pose proof (Local_run_warned_already n c s Hs) as H1.
  destruct (Local_run c s) as [x s1]. simpl in H1.
  specialize (IH s1 H1). destruct (run_all calls s1) as [xs s2]. exact IH.
Qed.

(** C7: over any sequence of [run] calls on one instance the fallback
    warning is written at most once; once the flag is set no later call
    resets it or writes the warning again; and a call that yields a Result
    leaves the flag set if it was set or if the call fell back, having
    written the warning only if it fell back with the flag unset. *)
Theorem pty_fallback_warning_once :
  (forall (calls : list call) (context_run : gmap string value),
      (count_warnings (log (snd (run_all calls (initial_state context_run))))
       <= 1)%nat) /\
  (forall (calls : list call) (s : state),
      warned_about_pty_fallback (self s) = true ->
      let s' := snd (run_all calls s) in
      warned_about_pty_fallback (self s') = true /\
      count_warnings (log s') = count_warnings (log s)) /\
  (forall (c : call) (s s' : state) (x : exn + Result) (r : Result)
          (p f : value),
      Local_run c s = (x, s') -> result_of x = Some r ->
      call_opts c s !! "pty" = Some p ->
      call_opts c s !! "fallback" = Some f ->
      warned_about_pty_fallback (self s')
        = warned_about_pty_fallback (self s) || falls_back (call_env c) p f /\
      count_warnings (log s')
        = (count_warnings (log s)
           + if falls_back (call_env c) p f
                && negb (warned_about_pty_fallback (self s))
             then 1 else 0)%nat).
Proof.
  split; [|split].
  - intros calls cfg.
    assert (H0 : warned_once (initial_state cfg)) by apply le_n.
    pose proof (run_all_warned_once calls _ H0) as H. unfold warned_once in H.
    destruct (warned_about_pty_fallback _); lia.
  - intros calls s Hs.
    apply (run_all_warned_already (count_warnings (log s)) calls s).
    split; [exact Hs | reflexivity].
  - intros c s s' x r p f H Hr Hp Hf.
    destruct (Local_run_result c s s' x r H Hr)
      as (h & hide & o & e & echo & p' & f' & enc
          & _ & _ & _ & _ & _ & Hp' & Hf' & _ & _ & _ & Hw & _ & Hlog).
    rewrite Hp in Hp'. rewrite Hf in Hf'.
    injection Hp' as <-. injection Hf' as <-.
    split; [exact Hw|].
    rewrite Hlog, !count_warnings_app, !thread_events_no_warning.
    destruct (truthy echo), (falls_back _ p f && _); simpl; lia.
Qed.

(** Three calls that ask for a pty without a terminal: the first one
    writes the warning and sets the flag, the others write nothing more. *)
Lemma pty_fallback_warning_once_witness :
  let c := pty_call false false (VBool true) in
  let calls := [c; c; pty_call true false (VInt 1)] in
  let s0 := initial_state default_config in
  let s1 := snd (Local_run c s0) in
  (count_warnings (log (snd (run_all calls s0))) <= 1)%nat /\
  (warned_about_pty_fallback (self s1)
     = warned_about_pty_fallback (self s0)
       || falls_back (call_env c) (VBool true) (VBool true) /\
   count_warnings (log s1)
     = (count_warnings (log s0)
        + if falls_back (call_env c) (VBool true) (VBool true)
             && negb (warned_about_pty_fallback (self s0))
          then 1 else 0)%nat) /\
  (warned_about_pty_fallback (self (snd (run_all calls s1))) = true /\
   count_warnings (log (snd (run_all calls s1))) = count_warnings (log s1)).
Proof.
  intros c calls s0 s1.
  pose proof pty_fallback_warning_once as (H1 & H2 & H3).
  split; [apply H1|]. split.
  - apply (H3 c s0 s1 (fst (Local_run c s0))
             (Result_init [104; 13; 10; 233]%N [111; 111; 112; 115]%N 0
                (VBool false) (VBool false)));
      vm_compute; reflexivity.
  - apply (H2 calls s1). vm_compute; reflexivity.
Defined.

(** ** Capture and hide *)

Lemma mux_loop_hidden (dest : value) (items : list pystr) (end_ok : bool) :
  let t := mux_loop dest true items end_ok in
  written t = [] /\ captured t = items /\ finished t = end_ok.
Proof.
  induction items as [|data rest (Hw & Hc & Hf)]; [repeat split|].
  simpl. rewrite Hc. auto.
Qed.

Lemma mux_loop_shown (name : string) (items : list pystr) (end_ok : bool) :
  let t := mux_loop (VStream name) false items end_ok in
  written t = List.map (fun data => (name, data)) items /\
  captured t = items /\ finished t = end_ok.
Proof.
  induction items as [|data rest (Hw & Hc & Hf)]; [repeat split|].
  simpl. rewrite Hw, Hc. auto.
Qed.

Lemma Local_mux_hidden E read_func dest encoding :
  let t := Local_mux E read_func dest true encoding in
  written t = [] /\ captured t = decoded E read_func encoding.
Proof.
  unfold Local_mux, decoded.
  destruct (lookup_decoder E encoding) as [c|]; [|split; reflexivity].
  destruct (iterdecode c replace (get read_func)) as [items end_ok].
  split; apply mux_loop_hidden.
Qed.

Lemma Local_mux_shown E read_func name encoding :
  let t := Local_mux E read_func (VStream name) false encoding in
  written t = List.map (fun data => (name, data)) (decoded E read_func encoding) /\
  captured t = decoded E read_func encoding.
Proof.
  unfold Local_mux, decoded.
  destruct (lookup_decoder E encoding) as [c|]; [|split; reflexivity].
  destruct (iterdecode c replace (get read_func)) as [items end_ok].
  split; apply mux_loop_shown.
Qed.



(** C5: capture does depend on [hide] when the write to the sink raises.
    [_mux] appends a chunk to the buffer only after [dest.write(data)] and
    [dest.flush()]: with [out_stream=5], which has no [write], the shown
    stdout thread ends at its first chunk and the Result has an empty
    [stdout]; the same call with [hide='out'] does not write and has all
    of it.  The docstring of [run] says that stdout and stderr are always
    captured, whatever [hide] is. *)
Theorem capture_depends_on_hide :
  let c := {| call_env := sample_env false true; call_command := lit "0";
              call_kwargs := {[ "out_stream" := VInt 5 ]} |} in
  let s := initial_state default_config in
  fst (Local_run c s)
    = inr (Result_init [] [111; 111; 112; 115]%N 0 (VBool false) (VBool false))
  /\
  fst (Local_run (with_kwarg c "hide" (VStr (lit "out"))) s)
    = inr (Result_init [104; 13; 10; 233]%N [111; 111; 112; 115]%N 0
             (VBool false) (VBool false)).
Proof. split; vm_compute; reflexivity. Qed.

(** ** Incremental decoding *)

(** *** UTF-8 follows the contract of an incremental decoder *)

Ltac split_conditions :=
  repeat match goal with
         | |- context [if ?c then _ else _] =>
             lazymatch c with
             | context [if _ then _ else _] => fail
             | _ => destruct c eqn:?
             end
         end.

Lemma utf8_step_Char (a : bytes) (cp : N) (size : nat) :
  utf8_step a = Char cp size ->
  (1 <= size <= length a)%nat /\
  forall b, utf8_step (a ++ b) = Char cp size.
Proof.
  destruct a as [|ch [|ch2 [|ch3 [|ch4 rest]]]];
    cbn [app]; unfold utf8_step; split_conditions;
    intros H; try discriminate H; injection H as <- <-;
    (split; [cbn [length]; lia | intros b; reflexivity]).
Qed.

Lemma utf8_step_Invalid (a : bytes) (size : nat) :
  utf8_step a = Invalid size ->
  (1 <= size <= length a)%nat /\
  forall b, utf8_step (a ++ b) = Invalid size.
Proof.
  destruct a as [|ch [|ch2 [|ch3 [|ch4 rest]]]];
    cbn [app]; unfold utf8_step; split_conditions;
    intros H; try discriminate H; injection H as <-;
    (split; [cbn [length]; lia | intros b; reflexivity]).
Qed.

Lemma utf_8_decode_fuel_S (fuel : nat) (ch : N) (s : bytes)
    (errors : error_policy) (final : bool) :
  utf_8_decode_fuel (S fuel) (ch :: s) errors final =
    match utf8_step (ch :: s) with
    | Char cp size =>
        match utf_8_decode_fuel fuel (drop size (ch :: s)) errors final with
        | Some (text, consumed) => Some (cp :: text, (size + consumed)%nat)
        | None => None
        end
    | Invalid size =>
        match errors with
        | strict => None
        | replace =>
            match utf_8_decode_fuel fuel (drop size (ch :: s)) errors final with
            | Some (text, consumed) =>
                Some (REPLACEMENT :: text, (size + consumed)%nat)
            | None => None
            end
        end
    | Truncated =>
        if final then
          match errors with
          | strict => None
          | replace => Some ([REPLACEMENT], length (ch :: s))
          end
        else Some ([], O)
    end.
Proof. reflexivity. Qed.

Lemma utf_8_decode_fuel_nil (fuel : nat) (errors : error_policy)
    (final : bool) :
  utf_8_decode_fuel fuel [] errors final = Some ([], O).
Proof. destruct fuel; reflexivity. Qed.

(** More fuel than the length of the input changes nothing. *)
Lemma utf_8_decode_fuel_enough (errors : error_policy) (final : bool) :
  forall (fuel1 fuel2 : nat) (input : bytes),
    (length input <= fuel1)%nat -> (length input <= fuel2)%nat ->
    utf_8_decode_fuel fuel1 input errors final
      = utf_8_decode_fuel fuel2 input errors final.
Proof.
  induction fuel1 as [|fuel1 IH]; intros fuel2 input H1 H2.
  - destruct input; [|simpl in H1; lia]. rewrite !utf_8_decode_fuel_nil.
    reflexivity.
  - destruct input as [|ch s]; [rewrite !utf_8_decode_fuel_nil; reflexivity|].
    destruct fuel2 as [|fuel2]; [simpl in H2; lia|].
    rewrite !utf_8_decode_fuel_S.
    destruct (utf8_step (ch :: s)) as [cp size|size|] eqn:Hs; [| |reflexivity].
    + apply utf8_step_Char in Hs as [Hsize _].
      rewrite (IH fuel2); [reflexivity| |]; rewrite length_drop; simpl in *; lia.
    + apply utf8_step_Invalid in Hs as [Hsize _].
      rewrite (IH fuel2); [reflexivity| |]; rewrite length_drop; simpl in *; lia.
Qed.

Lemma utf_8_decode_cons (ch : N) (s : bytes) (errors : error_policy)
    (final : bool) :
  utf_8_decode (ch :: s) errors final =
    match utf8_step (ch :: s) with
    | Char cp size =>
        match utf_8_decode (drop size (ch :: s)) errors final with
        | Some (text, consumed) => Some (cp :: text, (size + consumed)%nat)
        | None => None
        end
    | Invalid size =>
        match errors with
        | strict => None
        | replace =>
            match utf_8_decode (drop size (ch :: s)) errors final with
            | Some (text, consumed) =>
                Some (REPLACEMENT :: text, (size + consumed)%nat)
            | None => None
            end
        end
    | Truncated =>
        if final then
          match errors with
          | strict => None
          | replace => Some ([REPLACEMENT], length (ch :: s))
          end
        else Some ([], O)
    end.
Proof.
  unfold utf_8_decode. cbn [length]. rewrite utf_8_decode_fuel_S.
  destruct (utf8_step (ch :: s)) as [cp size|size|] eqn:Hs; [| |reflexivity].
  - apply utf8_step_Char in Hs as [Hsize _].
    rewrite (utf_8_decode_fuel_enough errors final (length s)
               (length (drop size (ch :: s)))); [reflexivity| |lia].
    rewrite length_drop. simpl in *. lia.
  - apply utf8_step_Invalid in Hs as [Hsize _].
    rewrite (utf_8_decode_fuel_enough errors final (length s)
               (length (drop size (ch :: s)))); [reflexivity| |lia].
    rewrite length_drop. simpl in *. lia.
Qed.

(** Under [replace] the decoder always returns. *)
Lemma utf_8_replace_total (input : bytes) (final : bool) :
  is_Some (utf_8_decode input replace final).
Proof.
  unfold utf_8_decode. generalize (length input) as fuel. intros fuel.
  revert input. induction fuel as [|fuel IH]; intros input.
  - simpl. eauto.
  - destruct input as [|ch s]; [simpl; eauto|].
    rewrite utf_8_decode_fuel_S.
    destruct (utf8_step (ch :: s)) as [cp size|size|].
    + destruct (IH (drop size (ch :: s))) as [[text n] ->]. eauto.
    + destruct (IH (drop size (ch :: s))) as [[text n] ->]. eauto.
    + destruct final; eauto.
Qed.

(** What was decoded before more bytes arrived stays as it is: decoding
    [a ++ b] gives what decoding [a] gave, followed by what decoding the
    unconsumed tail of [a] with [b] gives. *)
Lemma utf_8_split (errors : error_policy) (final : bool) (b : bytes) :
  forall (a : bytes) (r : pystr) (n : nat),
    utf_8_decode a errors false = Some (r, n) ->
    utf_8_decode (a ++ b) errors final =
      match utf_8_decode (drop n a ++ b) errors final with
      | Some (r', n') => Some (r ++ r', (n + n')%nat)
      | None => None
      end.
Proof.
  intros a. remember (length a) as len eqn:Hlen.
  revert a Hlen. induction len as [len IH] using lt_wf_ind.
  intros a Hlen r n H. destruct a as [|ch s].
  - injection H as <- <-. cbn [app drop].
    destruct (utf_8_decode b errors final) as [[r' n']|]; reflexivity.
  - rewrite utf_8_decode_cons in H.
    destruct (utf8_step (ch :: s)) as [cp size|size|] eqn:Hs.
    + apply utf8_step_Char in Hs as [Hsize Hstep].
      destruct (utf_8_decode (drop size (ch :: s)) errors false)
        as [[r1 n1]|] eqn:Hd; [|discriminate H].
      injection H as <- <-.
      change ((ch :: s) ++ b) with (ch :: (s ++ b)) at 1.
      rewrite utf_8_decode_cons.
      change (ch :: s ++ b) with ((ch :: s) ++ b).
      rewrite Hstep, drop_app_le by lia.
      rewrite (IH (length (drop size (ch :: s)))) with (r := r1) (n := n1);
        [|rewrite length_drop; subst len; simpl in *; lia|reflexivity|exact Hd].
      rewrite drop_drop.
      destruct (utf_8_decode (drop (size + n1) (ch :: s) ++ b) errors final)
        as [[r' n']|]; [|reflexivity].
      f_equal. f_equal. lia.
    + apply utf8_step_Invalid in Hs as [Hsize Hstep].
      destruct errors; [discriminate H|].
      destruct (utf_8_decode (drop size (ch :: s)) replace false)
        as [[r1 n1]|] eqn:Hd; [|discriminate H].
      injection H as <- <-.
      change ((ch :: s) ++ b) with (ch :: (s ++ b)) at 1.
      rewrite utf_8_decode_cons.
      change (ch :: s ++ b) with ((ch :: s) ++ b).
      rewrite Hstep, drop_app_le by lia.
      rewrite (IH (length (drop size (ch :: s)))) with (r := r1) (n := n1);
        [|rewrite length_drop; subst len; simpl in *; lia|reflexivity|exact Hd].
      rewrite drop_drop.
      destruct (utf_8_decode (drop (size + n1) (ch :: s) ++ b) replace final)
        as [[r' n']|]; [|reflexivity].
      f_equal. f_equal. lia.
    + injection H as <- <-. rewrite drop_0.
      destruct (utf_8_decode ((ch :: s) ++ b) errors final) as [[r' n']|];
        reflexivity.
Qed.

(** *** Where the claim of C9 stops holding *)

(** C9, as stated, fails in two ways.  Under a pty on Linux the read at
    the end of the stream raises: the thread ends by that exception, the
    decoder is never flushed, and the incomplete sequence [0xC3] at the end
    of the stream is dropped, where decoding with [replace] puts U+FFFD.
    And a codec that does not take [errors='replace'], as [idna], raises
    whatever the bytes are: the thread ends having captured nothing. *)
Lemma decoding_drops_or_raises :
  (let t := Local_mux (sample_env false true)
              {| reads := [[104; 195]]%N; raises_at_end := true |}
              sys_stdout false (VStr (lit "utf-8")) in
   finished t = false /\ join (captured t) = [104]%N /\
   buffer_decode utf_8 [104; 195]%N replace true
     = Some ([104; REPLACEMENT]%N, 2%nat)) /\
  (let t := Local_mux (sample_env false true) (pipe_reader [[104]]%N)
              sys_stdout false (VStr (lit "idna")) in
   finished t = false /\ captured t = []).
Proof. vm_compute. repeat split. Qed.

(** *** Any decoder that follows the contract *)

Section IncrementalDecoder.
Variable c : codec.

(** Under [replace] the codec decodes any input. *)
Hypothesis replace_total : forall (input : bytes) (final : bool),
  is_Some (buffer_decode c input replace final).

(** More input does not change what was already decoded. *)
Hypothesis decode_split : forall (a b : bytes) (final : bool) (r : pystr)
                                 (n : nat),
  buffer_decode c a replace false = Some (r, n) ->
  buffer_decode c (a ++ b) replace final =
    match buffer_decode c (drop n a ++ b) replace final with
    | Some (r', n') => Some (r ++ r', (n + n')%nat)
    | None => None
    end.

Lemma join_yield (output : pystr) (ys : list pystr) :
  join ((if nonempty output then [output] else []) ++ ys)
    = output ++ join ys.
Proof. destruct output; reflexivity. Qed.

(** Decoding chunk by chunk yields, joined, what decoding the buffered
    bytes and all the chunks at once gives. *)
Lemma iterdecode_from_whole (iterator : list bytes) :
  forall buffer : bytes,
  exists (items : list pystr) (n : nat),
    iterdecode_from c replace buffer iterator true = (items, true) /\
    buffer_decode c (buffer ++ List.concat iterator) replace true
      = Some (join items, n).
Proof.
  induction iterator as [|input rest IH]; intros buffer.
  - cbn [iterdecode_from List.concat]. unfold decode.
    destruct (replace_total (buffer ++ []) true) as [[output n] ->].
    exists (if nonempty output then [output] else []), n.
    split; [reflexivity|].
    rewrite <- (app_nil_r (if nonempty output then _ else _)), join_yield.
    unfold join. cbn [List.concat]. rewrite app_nil_r. reflexivity.
  - cbn [iterdecode_from List.concat]. unfold decode.
    destruct (replace_total (buffer ++ input) false) as [[output n] Hd].
    rewrite Hd.
    destruct (IH (drop n (buffer ++ input))) as (ys & n' & -> & Hwhole).
    eexists _, _. split; [reflexivity|].
    rewrite join_yield, app_assoc.
    rewrite (decode_split _ _ _ _ _ Hd), Hwhole. reflexivity.
Qed.

(** The bytes a decoder has left over give no text until more arrive. *)
Lemma decode_leftover (a : bytes) (r : pystr) (n : nat) :
  buffer_decode c a replace false = Some (r, n) ->
  exists k, buffer_decode c (drop n a) replace false = Some ([], k).
Proof.
  intros H. pose proof (decode_split a [] false r n H) as Hs.
  rewrite !app_nil_r, H in Hs.
  destruct (buffer_decode c (drop n a) replace false) as [[r' n']|];
    [|discriminate Hs].
  injection Hs as Hr _.
  rewrite <- (app_nil_r r) in Hr at 1. apply app_inv_head in Hr as <-.
  eauto.
Qed.

(** When the source of the chunks raises, what was yielded before is,
    joined, the decoding of the chunks without the last flush. *)
Lemma iterdecode_from_raised (iterator : list bytes) :
  forall (buffer : bytes) (k : nat),
  buffer_decode c buffer replace false = Some ([], k) ->
  exists (items : list pystr) (n : nat),
    iterdecode_from c replace buffer iterator false = (items, false) /\
    buffer_decode c (buffer ++ List.concat iterator) replace false
      = Some (join items, n).
Proof.
  induction iterator as [|input rest IH]; intros buffer k Hk.
  - cbn [iterdecode_from List.concat]. exists [], k.
    split; [reflexivity|]. rewrite app_nil_r. exact Hk.
  - cbn [iterdecode_from List.concat]. unfold decode.
    destruct (replace_total (buffer ++ input) false) as [[output n] Hd].
    rewrite Hd.
    destruct (decode_leftover _ _ _ Hd) as [k' Hk'].
    destruct (IH (drop n (buffer ++ input)) k' Hk') as (ys & n' & -> & Hrest).
    eexists _, _. split; [reflexivity|].
    rewrite join_yield, app_assoc.
    rewrite (decode_split _ _ _ _ _ Hd), Hrest. reflexivity.
Qed.

Lemma Local_mux_with_sink (E : environment) (name : pystr)
    (read_func : reader) (dest : value) (hide : bool) :
  getincrementaldecoder E name = Some c ->
  hide = true \/ (exists sink, dest = VStream sink) ->
  let t := Local_mux E read_func dest hide (VStr name) in
  captured t = fst (iterdecode c replace (get read_func)) /\
  finished t = snd (iterdecode c replace (get read_func)).
Proof.
  intros Hc Hd. unfold Local_mux, lookup_decoder. rewrite Hc.
  destruct (iterdecode c replace (get read_func)) as [items end_ok].
  destruct Hd as [->|[sink ->]].
  - destruct (mux_loop_hidden dest items end_ok) as (_ & Hcap & Hfin). auto.
  - destruct hide.
    + destruct (mux_loop_hidden (VStream sink) items end_ok)
        as (_ & Hcap & Hfin). auto.
    + destruct (mux_loop_shown sink items end_ok) as (_ & Hcap & Hfin). auto.
Qed.

(** C9 (as amended): with a decoder that takes [errors='replace'] (it
    returns for every input, and more input does not change what it has
    decoded) and a sink that takes the writes (or a hidden stream),
    decoding never raises, whatever bytes are read.  When the stream ends
    by an empty read the thread runs to its end and the text it captures
    is the decoding of all the bytes read, taken as one string and
    flushed; when the read at the end of the stream raises, the thread
    ends by that exception and the text is the decoding of the bytes
    without the last flush, so an incomplete sequence at the end is
    dropped.  Either way the text does not depend on where the reads cut
    the stream. *)
Theorem decoding_never_raises (E : environment) (name : pystr)
    (read_func : reader) (dest : value) (hide : bool) :
  getincrementaldecoder E name = Some c ->
  hide = true \/ (exists sink, dest = VStream sink) ->
  let t := Local_mux E read_func dest hide (VStr name) in
  let input := List.concat (fst (get read_func)) in
  let returns := snd (get read_func) in
  finished t = returns /\
  (exists n,
      buffer_decode c input replace returns = Some (join (captured t), n)) /\
  (forall read_func' : reader,
      List.concat (fst (get read_func')) = input ->
      snd (get read_func') = returns ->
      join (captured (Local_mux E read_func' dest hide (VStr name)))
        = join (captured t)).
Proof.
  intros Hc Hd.
  assert (Hmux : forall rf : reader,
             let t := Local_mux E rf dest hide (VStr name) in
             finished t = snd (get rf) /\
             exists n,
               buffer_decode c (List.concat (fst (get rf))) replace
                 (snd (get rf))
                 = Some (join (captured t), n)).
  { intros rf. destruct (Local_mux_with_sink E name rf dest hide Hc Hd)
      as [Hcap Hfin].
    cbv zeta. rewrite Hcap, Hfin. unfold iterdecode.
    destruct (get rf) as [chunks [|]]; cbn [fst snd].
    - destruct (iterdecode_from_whole chunks []) as (items & n & -> & Hw).
      cbn [fst snd]. eauto.
    - destruct (replace_total [] false) as [[r0 n0] H0].
      destruct (decode_leftover _ _ _ H0) as [k Hk]. rewrite drop_nil in Hk.
      destruct (iterdecode_from_raised chunks [] k Hk)
        as (items & n & -> & Hw).
      cbn [fst snd]. eauto. }
  intros t input returns. destruct (Hmux read_func) as [Hfin [n Hn]].
  split; [exact Hfin|]. split; [eauto|].
  intros read_func' Heq Hret. destruct (Hmux read_func') as [_ [n' Hn']].
  rewrite Heq, Hret in Hn'. fold t input returns in Hn. congruence.
Qed.
End IncrementalDecoder.

(** UTF-8: an invalid byte, then [h], U+00E9 cut in two by the reads, and
    a truncated character at the end of the stream, which ends by an empty
    read. *)
Lemma decoding_never_raises_witness :
  let E := sample_env false true in
  let read_func := pipe_reader [[255; 104; 195]; [169]; [226; 130]]%N in
  let t := Local_mux E read_func sys_stdout false (VStr (lit "utf-8")) in
  let input := List.concat (fst (get read_func)) in
  let returns := snd (get read_func) in
  finished t = returns /\
  (exists n,
      buffer_decode utf_8 input replace returns
        = Some (join (captured t), n)) /\
  (forall read_func' : reader,
      List.concat (fst (get read_func')) = input ->
      snd (get read_func') = returns ->
      join (captured (Local_mux E read_func' sys_stdout false
                        (VStr (lit "utf-8"))))
        = join (captured t)).
Proof.
  intros E read_func.
  apply (decoding_never_raises utf_8 utf_8_replace_total
           (fun a b final r n H => utf_8_split replace final b a r n H)
           E (lit "utf-8") read_func sys_stdout false).
  - reflexivity.
  - right. exists "sys.stdout"%string. reflexivity.
Defined.

Example utf_8_across_reads :
  captured (Local_mux (sample_env false true)
              (pipe_reader [[255; 104; 195]; [169]; [226; 130]]%N)
              sys_stdout false (VStr (lit "utf-8")))
    = [[REPLACEMENT; 104]; [233]; [REPLACEMENT]]%N.
Proof. vm_compute. reflexivity. Qed.

Example utf_8_strict_raises :
  iterdecode utf_8 strict ([[255; 104]]%N, true) = ([], false).
Proof. vm_compute. reflexivity. Qed.

(* ===================================================================== *)
(** * Further properties of the code *)
(* ===================================================================== *)

(** ** Result.__str__ *)

Lemma rstrip_whitespace (isspace : N -> bool) (ws : pystr) :
  Forall (fun c => isspace c = true) ws -> rstrip isspace ws = [].
Proof.
  induction 1 as [|c ws Hc _ IH]; [reflexivity|].
  cbn [rstrip]. rewrite IH, Hc. reflexivity.
Qed.

Lemma rstrip_app_whitespace (isspace : N -> bool) (s ws : pystr) :
  Forall (fun c => isspace c = true) ws ->
  rstrip isspace (s ++ ws) = rstrip isspace s.
Proof.
  intros Hws. induction s as [|c s IH].
  - cbn [app]. rewrite rstrip_whitespace by exact Hws. reflexivity.
  - cbn [app rstrip]. rewrite IH. reflexivity.
Qed.

(** What [rstrip] leaves does not end in whitespace, and what it drops is
    whitespace only. *)
Lemma rstrip_spec (isspace : N -> bool) (s : pystr) :
  (exists ws, s = rstrip isspace s ++ ws /\
              Forall (fun c => isspace c = true) ws) /\
  (forall t c, rstrip isspace s = t ++ [c] -> isspace c = false).
Proof.
  induction s as [|c s [(ws & Hs & Hws) Hlast]].
  - split; [exists []; split; [reflexivity | constructor]|].
    intros t c H. destruct t; discriminate H.
  - cbn [rstrip]. destruct (rstrip isspace s) as [|d t'] eqn:Hr.
    + destruct (isspace c) eqn:Hc.
      * split; [exists (c :: s); split; [reflexivity|]|].
        -- constructor; [exact Hc|]. rewrite Hs. exact Hws.
        -- intros t c0 H. destruct t; discriminate H.
      * split; [exists ws; split; [cbn in *; congruence | exact Hws]|].
        intros t c0 H. destruct t as [|? [|? ?]]; try discriminate H.
        injection H as <-. exact Hc.
    + split; [exists ws; split; [cbn in *; congruence | exact Hws]|].
      intros t c0 H. destruct t as [|c1 t]; [discriminate H|].
      injection H as _ H. exact (Hlast t c0 H).
Qed.

Lemma Result_str_eq (isspace : N -> bool) (r : Result) :
  Result_str isspace r =
    (lit "Command exited with status " ++ str_of_int (exited r) ++ lit ".")
    ++ [LF] ++ section_of isspace (lit "stdout") (stdout r)
    ++ [LF] ++ section_of isspace (lit "stderr") (stderr r).
Proof. reflexivity. Qed.

Lemma section_of_app_whitespace (isspace : N -> bool) (x val ws : pystr) :
  (val = [] -> ws = []) ->
  Forall (fun c => isspace c = true) ws ->
  section_of isspace x (val ++ ws) = section_of isspace x val.
Proof.
  intros Hval Hws. unfold section_of.
  destruct val as [|c val]; [rewrite (Hval eq_refl); reflexivity|].
  rewrite rstrip_app_whitespace by exact Hws. reflexivity.
Qed.

(** X1: the text of a Result does not show the whitespace that ends a
    non-empty [stdout] or [stderr]: adding whitespace at the end of one
    that is not empty leaves [__str__] unchanged. *)
Theorem Result_str_trailing_whitespace (isspace : N -> bool)
    (out err ws1 ws2 : pystr) (code : Z) (p x : value) :
  (out = [] -> ws1 = []) -> (err = [] -> ws2 = []) ->
  Forall (fun c => isspace c = true) ws1 ->
  Forall (fun c => isspace c = true) ws2 ->
  Result_str isspace (Result_init (out ++ ws1) (err ++ ws2) code p x)
    = Result_str isspace (Result_init out err code p x).
Proof.
  intros H1 H2 Hws1 Hws2. rewrite !Result_str_eq. cbn [exited stdout stderr Result_init].
  rewrite !section_of_app_whitespace by assumption. reflexivity.
Qed.

Lemma Result_str_trailing_whitespace_witness :
  Result_str ascii_isspace
    (Result_init (lit "hi" ++ [32; LF]%N) ([] ++ []) 2 (VBool false) VNone)
    = Result_str ascii_isspace
        (Result_init (lit "hi") [] 2 (VBool false) VNone).
Proof.
  apply (Result_str_trailing_whitespace ascii_isspace (lit "hi") []
           [32; LF]%N [] 2 (VBool false) VNone).
  - intros H. discriminate H.
  - reflexivity.
  - repeat constructor.
  - constructor.
Defined.

(** X2: [__str__] writes the marker [(no stdout)] (or [(no stderr)]) only
    for the empty string: an output made of whitespace only is shown as a
    labelled section with an empty body, and the text of the Result is not
    the one of a Result without that output. *)
Theorem Result_str_marker_only_when_empty (isspace : N -> bool)
    (out err : pystr) (code : Z) (p x : value) :
  out <> [] ->
  (Forall (fun c => isspace c = true) out ->
   section_of isspace (lit "stdout") out
     = lit "=== stdout ===" ++ [LF; LF]) /\
  section_of isspace (lit "stdout") out <> lit "(no stdout)" /\
  Result_str isspace (Result_init out err code p x)
    <> Result_str isspace (Result_init [] err code p x).
Proof.
  intros Hout. destruct out as [|c out]; [congruence|].
  split; [|split].
  - intros Hws. unfold section_of. cbn [nonempty].
    rewrite rstrip_whitespace by exact Hws. reflexivity.
  - unfold section_of. cbn [nonempty]. intros H. discriminate H.
  - rewrite !Result_str_eq. cbn [exited stdout stderr Result_init].
    intros H. apply app_inv_head in H. cbn [app] in H.
    injection H as H. unfold section_of in H. cbn [nonempty] in H.
    discriminate H.
Qed.

Lemma Result_str_marker_only_when_empty_witness :
  (Forall (fun c => ascii_isspace c = true) [LF] ->
   section_of ascii_isspace (lit "stdout") [LF]
     = lit "=== stdout ===" ++ [LF; LF]) /\
  section_of ascii_isspace (lit "stdout") [LF] <> lit "(no stdout)" /\
  Result_str ascii_isspace (Result_init [LF] [] 0 VNone VNone)
    <> Result_str ascii_isspace (Result_init [] [] 0 VNone VNone).
Proof.
  apply (Result_str_marker_only_when_empty ascii_isspace [LF] [] 0 VNone VNone).
  discriminate.
Defined.

(** ** Exit codes *)

Lemma WEXITSTATUS_range (st : Z) : 0 <= WEXITSTATUS st <= 255.
Proof.
  unfold WEXITSTATUS.
  assert (H : Z.land (Z.shiftr st 8) 255 = Z.shiftr st 8 mod 256)
    by (change 255 with (Z.ones 8); apply Z.land_ones; lia).
  rewrite H.
  pose proof (Z.mod_pos_bound (Z.shiftr st 8) 256 ltac:(lia)). lia.
Qed.

(** The exit code is the second byte of the wait status, whatever the
    first byte (the signal) is. *)
Lemma WEXITSTATUS_of_exit (code sig : Z) :
  0 <= code < 256 -> 0 <= sig < 256 ->
  WEXITSTATUS (code * 256 + sig) = code.
Proof.
  intros Hc Hs. unfold WEXITSTATUS. change 255 with (Z.ones 8).
  rewrite Z.land_ones, Z.shiftr_div_pow2 by lia.
  change (2 ^ 8) with 256.
  rewrite Z.div_add_l by lia. rewrite (Z.div_small sig) by lia.
  rewrite Z.add_0_r. apply Z.mod_small. lia.
Qed.

(** X3: in pty mode the exit code of the Result is the second byte of the
    child's wait status: between 0 and 255, and 0 when the status is below
    256, that is when the child was ended by a signal; such a call returns
    its Result as a success, whatever [warn] is.  In pipe mode the exit
    code is [Popen.returncode] as it is. *)
Theorem exit_code_of_Result (c : call) (s s' : state) (x : exn + Result)
    (r : Result) :
  Local_run c s = (x, s') -> result_of x = Some r ->
  let E := call_env c in
  (pty r = VBool true ->
     let child := spawn E (call_command c) true in
     exited r = WEXITSTATUS (waitpid_status child) /\
     0 <= exited r <= 255 /\
     (0 <= waitpid_status child < 256 -> x = inr r /\ ok r = true)) /\
  (pty r = VBool false ->
     exited r = popen_returncode (spawn E (call_command c) false)).
Proof.
  intros H Hr E.
  destruct (Local_run_result c s s' x r H Hr)
    as (h & hide & o & e & echo & p & f & enc
        & _ & _ & _ & _ & _ & _ & _ & _ & Hres & _).
  fold E in Hres.
  pose proof (Local_run_executed c s s' x r H Hr) as Hex.
  rewrite Local_run_eq, Hex, raise_or_return_eq in H.
  assert (Hp : pty r = VBool (decidePtyUsage E p f)) by (rewrite Hres; reflexivity).
  assert (Hx : exited r = exit_code (decidePtyUsage E p f)
                            (spawn E (call_command c) (decidePtyUsage E p f)))
    by (rewrite Hres; reflexivity).
  split.
  - intros Ht. rewrite Ht in Hp. injection Hp as Hp. rewrite <- Hp in Hx.
    cbn [exit_code] in Hx. intros child. fold child in Hx.
    split; [exact Hx|]. split; [rewrite Hx; apply WEXITSTATUS_range|].
    intros Hst.
    assert (Hz : exited r = 0).
    { rewrite Hx. replace (waitpid_status child)
        with (0 * 256 + waitpid_status child) by lia.
      apply WEXITSTATUS_of_exit; lia. }
    rewrite Hz in H. cbn in H. injection H as <-.
    split; [reflexivity | apply ok_iff, Hz].
  - intros Ht. rewrite Ht in Hp. injection Hp as Hp. rewrite <- Hp in Hx.
    exact Hx.
Qed.

(** A child killed by signal 9 under a pty: exit code 0, a success. *)
Lemma exit_code_of_Result_witness :
  let c := {| call_env := killed_env; call_command := lit "sleep 9";
              call_kwargs := <["pty" := VBool true]> ∅ |} in
  let s := initial_state default_config in
  let r := Result_init [104]%N [] 0 (VBool true) (VBool false) in
  let x := fst (Local_run c s) in
  let child := spawn killed_env (lit "sleep 9") true in
  exited r = WEXITSTATUS (waitpid_status child) /\
  0 <= exited r <= 255 /\
  (0 <= waitpid_status child < 256 -> x = inr r /\ ok r = true).
Proof.
  intros c s r x.
  apply (proj1 (exit_code_of_Result c s (snd (Local_run c s)) x r
                  ltac:(vm_compute; reflexivity)
                  ltac:(vm_compute; reflexivity))).
  reflexivity.
Defined.

(** ** Universal newlines, continued *)

Lemma universal_newlines_from_no_CR (after_cr : bool) (s : pystr) :
  ~ In CR (universal_newlines_from after_cr s).
Proof.
  revert after_cr. induction s as [|c s IH]; intros after_cr; [intros []|].
  cbn [universal_newlines_from].
  destruct (c =? CR)%N eqn:Hc.
  - intros [H|H]; [discriminate H | exact (IH _ H)].
  - destruct ((c =? LF)%N && after_cr); [apply IH|].
    intros [H|H]; [|exact (IH _ H)].
    apply N.eqb_neq in Hc. congruence.
Qed.

Lemma universal_newlines_without_CR (s : pystr) :
  ~ In CR s -> universal_newlines s = s.
Proof.
  unfold universal_newlines. induction s as [|c s IH]; intros H; [reflexivity|].
  cbn [universal_newlines_from].
  destruct (c =? CR)%N eqn:Hc.
  - apply N.eqb_eq in Hc. subst c. exfalso. apply H. left. reflexivity.
  - rewrite andb_false_r, IH; [reflexivity|].
    intros Hin. apply H. right. exact Hin.
Qed.

Lemma universal_newlines_from_length (after_cr : bool) (s : pystr) :
  (length (universal_newlines_from after_cr s) <= length s)%nat.
Proof.
  revert after_cr. induction s as [|c s IH]; intros after_cr; [reflexivity|].
  cbn [universal_newlines_from].
  destruct (c =? CR)%N; [cbn [length]; specialize (IH true); lia|].
  destruct ((c =? LF)%N && after_cr); cbn [length];
    specialize (IH false); lia.
Qed.

(** X4: on Windows neither captured string of a Result contains a
    carriage return. *)
Theorem no_carriage_return_on_Windows (c : call) (s s' : state)
    (x : exn + Result) (r : Result) :
  Local_run c s = (x, s') -> result_of x = Some r ->
  WINDOWS (call_env c) = true ->
  ~ In CR (stdout r) /\ ~ In CR (stderr r).
Proof.
  intros H Hr Hw.
  destruct (Local_run_result c s s' x r H Hr)
    as (h & hide & o & e & echo & p & f & enc
        & _ & _ & _ & _ & _ & _ & _ & _ & -> & _).
  cbn [stdout stderr Result_init]. rewrite !newlines_eq, Hw.
  split; apply universal_newlines_from_no_CR.
Qed.

Lemma no_carriage_return_on_Windows_witness :
  let c := {| call_env := sample_env true true; call_command := lit "0";
              call_kwargs := ∅ |} in
  let r := Result_init [104; 10; 233]%N [111; 111; 112; 115]%N 0
             (VBool false) (VBool false) in
  ~ In CR (stdout r) /\ ~ In CR (stderr r).
Proof.
  intros c r.
  apply (no_carriage_return_on_Windows c (initial_state default_config)
           (snd (Local_run c (initial_state default_config)))
           (fst (Local_run c (initial_state default_config))) r);
    vm_compute; reflexivity.
Defined.

(** X5: the newline treatment of [run] changes nothing in a text without
    carriage return, on any platform; applied twice it gives what it gives
    once; and it never makes a text longer. *)
Theorem newlines_properties (E : environment) (text : pystr) :
  (~ In CR text -> newlines E text = text) /\
  newlines E (newlines E text) = newlines E text /\
  (length (newlines E text) <= length text)%nat.
Proof.
  rewrite !newlines_eq. destruct (WINDOWS E); cbv iota.
  - split; [apply universal_newlines_without_CR|].
    split; [|apply universal_newlines_from_length].
    apply universal_newlines_without_CR, universal_newlines_from_no_CR.
  - split; [reflexivity|]. split; reflexivity.
Qed.

Lemma newlines_properties_witness :
  newlines (sample_env true true) (lit "no return") = lit "no return".
Proof.
  apply (proj1 (newlines_properties (sample_env true true) (lit "no return"))).
  vm_compute. intros H. repeat (destruct H as [H|H]; [discriminate H|]).
  exact H.
Defined.

(** ** normalize_hide, continued *)

(** X6: whatever [normalize_hide] returns is made of ['out'] and ['err']
    only, each at most once: the value it puts in the tuple in its last
    branch can only be one of the two. *)
Theorem normalize_hide_range (v : value) (hide : list value) :
  normalize_hide v = inr hide ->
  (forall x, In x hide -> x = VStr (lit "out") \/ x = VStr (lit "err")) /\
  List.NoDup hide /\
  (py_in (VStr (lit "out")) hide = true
     <-> py_in v [VBool true; VStr (lit "both"); VStr (lit "stdout");
                  VStr (lit "out")] = true) /\
  (py_in (VStr (lit "err")) hide = true
     <-> py_in v [VBool true; VStr (lit "both"); VStr (lit "stderr");
                  VStr (lit "err")] = true).
Proof.
  unfold normalize_hide.
  destruct (py_in v hide_vals) eqn:Hin; [|discriminate].
  apply py_in_hide_vals in Hin. cbn [negb]. intros [= <-].
  assert (Hv : In v (VInt 0 :: VInt 1 :: hide_vals)).
  { destruct Hin as [H|[->| ->]]; [right; right; exact H|left|right; left];
      reflexivity. }
  clear Hin. simpl in Hv.
  repeat (destruct Hv as [<-|Hv];
          [split; [simpl; intuition congruence|];
           split; [repeat constructor; vm_compute; intuition congruence|];
           vm_compute; split; split; congruence|]).
  destruct Hv.
Qed.

Lemma normalize_hide_range_witness :
  (forall x, In x [VStr (lit "err")] ->
             x = VStr (lit "out") \/ x = VStr (lit "err")) /\
  List.NoDup [VStr (lit "err")] /\
  (py_in (VStr (lit "out")) [VStr (lit "err")] = true
     <-> py_in (VStr (lit "stderr"))
           [VBool true; VStr (lit "both"); VStr (lit "stdout");
            VStr (lit "out")] = true) /\
  (py_in (VStr (lit "err")) [VStr (lit "err")] = true
     <-> py_in (VStr (lit "stderr"))
           [VBool true; VStr (lit "both"); VStr (lit "stderr");
            VStr (lit "err")] = true).
Proof.
  apply (normalize_hide_range (VStr (lit "stderr")) [VStr (lit "err")]).
  reflexivity.
Defined.

(** ** Options that are missing *)

Lemma state_eta (s : state) : {| self := self s; log := log s ++ [] |} = s.
Proof. destruct s. cbn. rewrite app_nil_r. reflexivity. Qed.

(** Before the pty decision [execute] is the same for every class: it
    stops at the first option that is missing, or at an invalid [hide],
    with the instance as it was. *)
Lemma execute_prestart_error C E command opts s e :
  prestart_error opts = Some e ->
  execute C E command opts s
    = (inl e, {| self := self s; log := log s ++ prestart_log opts command |}).
Proof.
  unfold prestart_error, prestart_log, execute, getitem, bind, lift.
  destruct (opts !! "hide") as [h|];
    [|intros [= <-]; cbn; rewrite state_eta; reflexivity].
  unfold ret at 1. cbv beta iota.
  destruct (normalize_hide h) as [e0|hide];
    [intros [= <-]; cbn; rewrite state_eta; reflexivity|].
  unfold ret at 1. cbv beta iota.
  destruct (opts !! "out_stream") as [o|];
    [|intros [= <-]; cbn; rewrite state_eta; reflexivity].
  unfold ret at 1. cbv beta iota.
  destruct (opts !! "err_stream") as [e1|];
    [|intros [= <-]; cbn; rewrite state_eta; reflexivity].
  unfold ret at 1. cbv beta iota.
  destruct (opts !! "echo") as [echo|];
    [|intros [= <-]; cbn; rewrite state_eta; reflexivity].
  unfold ret at 1. cbv beta iota.
  destruct (opts !! "pty") as [p|];
    [|intros [= <-]; destruct (truthy echo); cbn;
      rewrite ?state_eta; reflexivity].
  destruct (opts !! "fallback") as [f|];
    [discriminate|intros [= <-]; destruct (truthy echo); cbn;
      rewrite ?state_eta; reflexivity].
Qed.

Lemma prestart_error_None opts :
  prestart_error opts = None ->
  exists h hide o e echo p f,
    opts !! "hide" = Some h /\ normalize_hide h = inr hide /\
    opts !! "out_stream" = Some o /\ opts !! "err_stream" = Some e /\
    opts !! "echo" = Some echo /\ opts !! "pty" = Some p /\
    opts !! "fallback" = Some f.
Proof.
  unfold prestart_error.
  destruct (opts !! "hide") as [h|]; [|discriminate].
  destruct (normalize_hide h) as [e0|hide] eqn:Hn; [discriminate|].
  destruct (opts !! "out_stream") as [o|]; [|discriminate].
  destruct (opts !! "err_stream") as [e1|]; [|discriminate].
  destruct (opts !! "echo") as [echo|]; [|discriminate].
  destruct (opts !! "pty") as [p|]; [|discriminate].
  destruct (opts !! "fallback") as [f|]; [|discriminate].
  intros _. exists h, hide, o, e1, echo, p, f. repeat split. exact Hn.
Qed.

Lemma normalize_hide_not_Failure (h : value) (e : exn) :
  normalize_hide h = inl e -> not_Failure e.
Proof.
  unfold normalize_hide. destruct (negb _); [|discriminate].
  intros [= <-]. exact Logic.I.
Qed.

Lemma prestart_error_not_Failure opts e :
  prestart_error opts = Some e -> not_Failure e.
Proof.
  unfold prestart_error.
  destruct (opts !! "hide") as [h|]; [|intros [= <-]; exact Logic.I].
  destruct (normalize_hide h) as [e0|hide] eqn:Hn;
    [intros [= <-]; exact (normalize_hide_not_Failure _ _ Hn)|].
  destruct (opts !! "out_stream"); [|intros [= <-]; exact Logic.I].
  destruct (opts !! "err_stream"); [|intros [= <-]; exact Logic.I].
  destruct (opts !! "echo"); [|intros [= <-]; exact Logic.I].
  destruct (opts !! "pty"); [|intros [= <-]; exact Logic.I].
  destruct (opts !! "fallback"); [discriminate|intros [= <-]; exact Logic.I].
Qed.

Lemma prestart_error_missing opts key :
  In key ["hide"; "out_stream"; "err_stream"; "echo"; "pty"; "fallback"]%string ->
  opts !! key = None ->
  exists e, prestart_error opts = Some e /\ not_Failure e.
Proof.
  intros Hkey Hnone.
  destruct (prestart_error opts) as [e|] eqn:He.
  - exists e. split; [reflexivity|]. exact (prestart_error_not_Failure _ _ He).
  - destruct (prestart_error_None opts He)
      as (h & hide & o & e & echo & p & f & Hh & _ & Ho & He' & Hecho & Hp & Hf).
    simpl in Hkey.
    repeat (destruct Hkey as [<-|Hkey]; [congruence|]). destruct Hkey.
Qed.

Lemma spawned_prestart_log opts command :
  spawned (prestart_log opts command) = [] /\
  count_warnings (prestart_log opts command) = O.
Proof.
  unfold prestart_log.
  repeat match goal with
         | |- context [match ?x with _ => _ end] => destruct x
         end; split; reflexivity.
Qed.

(** X7: when one of the options [run] reads before it starts the child
    ([hide], [out_stream], [err_stream], [echo], [pty], [fallback]) has no
    value, the call raises (a [KeyError], or the [ValueError] of an
    invalid [hide] read before it), the instance is left as it was, no
    child is started and no fallback warning is written. *)
Theorem missing_option_stops_before_start (c : call) (s : state)
    (key : string) :
  In key ["hide"; "out_stream"; "err_stream"; "echo"; "pty"; "fallback"]%string ->
  call_opts c s !! key = None ->
  exists (e : exn) (evs : list event),
    prestart_error (call_opts c s) = Some e /\ not_Failure e /\
    Local_run c s = (inl e, {| self := self s; log := log s ++ evs |}) /\
    spawned evs = [] /\ count_warnings evs = O.
Proof.
  intros Hkey Hnone.
  destruct (prestart_error_missing _ _ Hkey Hnone) as (e & He & HnF).
  exists e, (prestart_log (call_opts c s) (call_command c)).
  split; [exact He|]. split; [exact HnF|].
  split; [|apply spawned_prestart_log].
  rewrite Local_run_eq, (execute_prestart_error _ _ _ _ _ _ He). reflexivity.
Qed.

(** A context without [pty]: [KeyError], after the echo. *)
Lemma missing_option_stops_before_start_witness :
  let cfg := delete "pty" default_config in
  let c := {| call_env := sample_env false true; call_command := lit "0";
              call_kwargs := <["echo" := VBool true]> ∅ |} in
  let s := initial_state cfg in
  exists (e : exn) (evs : list event),
    prestart_error (call_opts c s) = Some e /\ not_Failure e /\
    Local_run c s = (inl e, {| self := self s; log := log s ++ evs |}) /\
    spawned evs = [] /\ count_warnings evs = O.
Proof.
  intros cfg c s.
  apply (missing_option_stops_before_start c s "pty").
  - simpl. tauto.
  - vm_compute. reflexivity.
Defined.

(** The call that finds every option but [encoding]. *)
Lemma Local_execute_no_encoding E command opts s h hide o e echo p f :
  opts !! "hide" = Some h -> normalize_hide h = inr hide ->
  opts !! "out_stream" = Some o -> opts !! "err_stream" = Some e ->
  opts !! "echo" = Some echo -> opts !! "pty" = Some p ->
  opts !! "fallback" = Some f -> opts !! "encoding" = None ->
  let used := decidePtyUsage E p f in
  exists s',
    execute (Local E) E command opts s = (inl (KeyError "encoding"), s') /\
    context_config_run (self s') = context_config_run (self s) /\
    warned_about_pty_fallback (self s')
      = warned_about_pty_fallback (self s) || falls_back E p f /\
    using_pty (self s') = Some (VBool used) /\
    (if used then parent_fd (self s') else process (self s'))
      = Some (spawn E command used) /\
    status (self s') = status (self s) /\
    log s' = log s ++
      (if truthy echo then [EvPrint (echo_text command)] else []) ++
      (if falls_back E p f && negb (warned_about_pty_fallback (self s))
       then [EvWarning pty_fallback_warning] else []) ++
      [EvSpawn command used].
Proof.
  intros Hh Hn Ho He Hecho Hp Hf Henc.
  unfold execute, getitem, bind, lift.
  rewrite Hh; unfold ret at 1. rewrite Hn; unfold ret at 1.
  rewrite Ho; unfold ret at 1. rewrite He; unfold ret at 1.
  rewrite Hecho; unfold ret at 1. rewrite Hp, Hf, Henc.
  unfold decidePtyUsage, falls_back.
  destruct s as [[cfg warned up pr fd st] lg].
  cbv [should_use_pty start wait returncode stdout_reader stderr_reader _mux
       Local Local_should_use_pty Local_start Local_wait Local_returncode
       Local_stdout_reader Local_stderr_reader
       bind ret raise emit get_self modify getattr
       set_warned_about_pty_fallback set_using_pty set_process set_parent_fd
       set_status
       self log using_pty process parent_fd status warned_about_pty_fallback
       context_config_run].
  destruct (truthy echo), (truthy p), (stdin_isatty E), (truthy f), warned;
    cbv [truthy negb andb orb];
    (eexists; split; [reflexivity|]);
    cbv [self log using_pty process parent_fd status
         warned_about_pty_fallback context_config_run];
    rewrite <- ?app_assoc, ?app_nil_r; repeat split; reflexivity.
Qed.

(** X8: [encoding] is read after the child has been started: a call that
    finds every other option but no [encoding] raises [KeyError] with the
    child already running, and leaves it there, never read from and never
    waited for. *)
Theorem missing_encoding_leaves_child (c : call) (s : state) (p f : value) :
  prestart_error (call_opts c s) = None ->
  call_opts c s !! "pty" = Some p ->
  call_opts c s !! "fallback" = Some f ->
  call_opts c s !! "encoding" = None ->
  let E := call_env c in
  let used := decidePtyUsage E p f in
  exists (s' : state) (evs : list event),
    Local_run c s = (inl (KeyError "encoding"), s') /\
    log s' = log s ++ evs /\
    spawned evs = [used] /\ (forall dest, written_to dest evs = []) /\
    (if used then parent_fd (self s') else process (self s'))
      = Some (spawn E (call_command c) used) /\
    status (self s') = status (self s).
Proof.
  intros Hpre Hp Hf Henc E used.
  destruct (prestart_error_None _ Hpre)
    as (h & hide & o & e & echo & p' & f' & Hh & Hn & Ho & He & Hecho & Hp' & Hf').
  rewrite Hp in Hp'. rewrite Hf in Hf'.
  injection Hp' as <-. injection Hf' as <-.
  destruct (Local_execute_no_encoding E (call_command c) _ s _ _ _ _ _ _ _
              Hh Hn Ho He Hecho Hp Hf Henc)
    as (s' & Hex & _ & _ & _ & Hchild & Hst & Hlog).
  eexists s', _. split; [rewrite Local_run_eq; fold E; rewrite Hex; reflexivity|].
  split; [exact Hlog|].
  split; [|split; [|split; assumption]].
  - rewrite !spawned_app. destruct (truthy echo), (falls_back E p f && _);
      reflexivity.
  - intros dest. destruct (truthy echo), (falls_back E p f && _); reflexivity.
Qed.

Lemma missing_encoding_leaves_child_witness :
  let cfg := delete "encoding" default_config in
  let c := {| call_env := sample_env false true; call_command := lit "0";
              call_kwargs := <["encoding" := VStr (lit "utf-8")]> ∅ |} in
  let s := initial_state cfg in
  let E := call_env c in
  let used := decidePtyUsage E (VBool false) (VBool true) in
  exists (s' : state) (evs : list event),
    Local_run c s = (inl (KeyError "encoding"), s') /\
    log s' = log s ++ evs /\
    spawned evs = [used] /\ (forall dest, written_to dest evs = []) /\
    (if used then parent_fd (self s') else process (self s'))
      = Some (spawn E (call_command c) used) /\
    status (self s') = status (self s).
Proof.
  intros cfg c s.
  apply (missing_encoding_leaves_child c s (VBool false) (VBool true));
    vm_compute; reflexivity.
Defined.

(** ** Options the context does not have *)

Lemma opts_dom (config_run kwargs : gmap string value) :
  dom (fst (normalize_kwargs config_run kwargs)) = dom config_run.
Proof.
  apply set_eq. intros key. rewrite !elem_of_dom, opts_lookup.
  destruct (config_run !! key); simpl; split; intros [w Hw];
    try discriminate Hw; eauto.
Qed.

Lemma opts_unknown_kwarg (config_run kwargs : gmap string value)
    (key : string) (v : value) :
  config_run !! key = None ->
  fst (normalize_kwargs config_run (<[key := v]> kwargs))
    = fst (normalize_kwargs config_run kwargs).
Proof.
  intros Hkey. apply map_eq. intros k. rewrite !opts_lookup.
  destruct (config_run !! k) as [d|] eqn:Hk; [|reflexivity].
  simpl. f_equal. unfold merged.
  rewrite lookup_insert_ne by congruence. reflexivity.
Qed.

(** X9: the options of a call are exactly those the context has a default
    for.  A keyword argument of any other name is ignored: the call does
    what it does without it, nothing is raised for it, and it is what is
    left in [kwargs] after the merge. *)
Theorem unknown_kwarg_is_ignored (c : call) (s : state) (key : string)
    (v : value) :
  context_config_run (self s) !! key = None ->
  dom (call_opts (with_kwarg c key v) s) = dom (context_config_run (self s)) /\
  call_opts (with_kwarg c key v) s !! key = None /\
  Local_run (with_kwarg c key v) s = Local_run c s /\
  snd (normalize_kwargs (context_config_run (self s))
         (call_kwargs (with_kwarg c key v))) !! key = Some v.
Proof.
  intros Hkey. unfold call_opts, with_kwarg. cbn [call_kwargs].
  split; [apply opts_dom|].
  split; [rewrite opts_lookup, Hkey; reflexivity|].
  split.
  - unfold Local_run, run, bind, get_self. cbn [call_env call_command call_kwargs].
    rewrite (opts_unknown_kwarg _ _ _ _ Hkey). reflexivity.
  - destruct (normalize_kwargs_spec (context_config_run (self s))
                (<[key := v]> (call_kwargs c)) key) as [_ ->].
    rewrite Hkey. apply lookup_insert_eq.
Qed.

Lemma unknown_kwarg_is_ignored_witness :
  let c := failing_call in
  let s := initial_state default_config in
  Local_run (with_kwarg c "timeout" (VInt 3)) s = Local_run c s.
Proof.
  intros c s.
  apply (proj1 (proj2 (proj2 (unknown_kwarg_is_ignored c s "timeout" (VInt 3)
                                ltac:(vm_compute; reflexivity))))).
Defined.

(** X10: [warn] is read only when the command has failed, and only from
    the merged options.  With a context that has no default for [warn],
    whatever the caller passes as [warn], a command that exits with 0
    returns its Result and one that exits with another code raises
    [KeyError] instead of [Failure]. *)
Theorem warn_without_default (c : call) (s s' : state) (r : Result) :
  context_config_run (self s) !! "warn" = None ->
  execute (Local (call_env c)) (call_env c) (call_command c)
    (call_opts c s) s = (inr r, s') ->
  Local_run c s
    = (if exited r =? 0 then inr r else inl (KeyError "warn"), s') /\
  forall w, Local_run (with_kwarg c "warn" w) s = Local_run c s.
Proof.
  intros Hcfg Hex. split.
  - rewrite Local_run_eq, Hex, raise_or_return_eq.
    unfold call_opts. rewrite opts_lookup, Hcfg. reflexivity.
  - intros w. unfold Local_run, run, bind, get_self, with_kwarg.
    cbn [call_env call_command call_kwargs].
    rewrite (opts_unknown_kwarg _ _ _ _ Hcfg). reflexivity.
Qed.

Lemma warn_without_default_witness :
  let c := failing_call in
  let s := initial_state (delete "warn" default_config) in
  let r := Result_init [104; 13; 10; 233]%N [111; 111; 112; 115]%N 1
             (VBool false) (VBool false) in
  Local_run c s
    = (if exited r =? 0 then inr r else inl (KeyError "warn"),
       snd (Local_run c s)) /\
  forall w, Local_run (with_kwarg c "warn" w) s = Local_run c s.
Proof.
  intros c s r.
  apply (warn_without_default c s (snd (Local_run c s)) r);
    vm_compute; reflexivity.
Defined.

(** ** The base class *)

Lemma Runner_execute_start E command opts s h hide o e echo p f :
  opts !! "hide" = Some h -> normalize_hide h = inr hide ->
  opts !! "out_stream" = Some o -> opts !! "err_stream" = Some e ->
  opts !! "echo" = Some echo -> opts !! "pty" = Some p ->
  opts !! "fallback" = Some f ->
  execute BaseRunner E command opts s =
    (inl (AttributeError "start"),
     snd (set_using_pty p
            {| self := self s;
               log := log s ++ prestart_log opts command |})).
Proof.
  intros Hh Hn Ho He Hecho Hp Hf.
  unfold execute, prestart_log, getitem, bind, lift.
  rewrite Hh; unfold ret at 1. rewrite Hn; unfold ret at 1.
  rewrite Ho; unfold ret at 1. rewrite He; unfold ret at 1.
  rewrite Hecho; unfold ret at 1. rewrite Hp, Hf.
  destruct (truthy echo); cbn; rewrite ?app_nil_r; reflexivity.
Qed.

(** X11: the base class cannot run a command.  Whatever the options, a
    call of [run] on it raises and starts nothing; when the options are
    all there the exception is the [AttributeError] of the missing
    [start], raised after [using_pty] has been set to the [pty] option as
    it was given. *)
Theorem base_Runner_cannot_run (E : environment) (command : pystr)
    (kwargs : gmap string value) (s : state) :
  let opts := fst (normalize_kwargs (context_config_run (self s)) kwargs) in
  exists (e : exn) (s' : state),
    Runner_run E command kwargs s = (inl e, s') /\ not_Failure e /\
    log s' = log s ++ prestart_log opts command /\
    spawned (prestart_log opts command) = [] /\
    (prestart_error opts = None ->
     e = AttributeError "start" /\ using_pty (self s') = opts !! "pty").
Proof.
  intros opts. unfold Runner_run, run, bind, get_self. fold opts.
  destruct (prestart_error opts) as [e|] eqn:He.
  - rewrite (execute_prestart_error _ _ _ _ _ _ He).
    eexists _, _. split; [reflexivity|].
    split; [exact (prestart_error_not_Failure _ _ He)|].
    split; [reflexivity|]. split; [apply spawned_prestart_log | discriminate].
  - destruct (prestart_error_None opts He)
      as (h & hide & o & e & echo & p & f & Hh & Hn & Ho & He' & Hecho & Hp & Hf).
    rewrite (Runner_execute_start E command opts s _ _ _ _ _ _ _
               Hh Hn Ho He' Hecho Hp Hf).
    eexists _, _. split; [reflexivity|]. split; [exact Logic.I|].
    split; [reflexivity|]. split; [apply spawned_prestart_log|].
    intros _. split; [reflexivity|]. rewrite Hp. reflexivity.
Qed.

(** ** Which sink gets what *)

Lemma written_to_app (dest : string) (l1 l2 : list event) :
  written_to dest (l1 ++ l2) = written_to dest l1 ++ written_to dest l2.
Proof.
  induction l1 as [|ev l1 IH]; [reflexivity|].
  destruct ev; cbn [app written_to]; try exact IH.
  destruct (bool_decide _); [cbn [app]; f_equal|]; exact IH.
Qed.

Lemma written_to_same (dest : string) (items : list pystr) :
  written_to dest
    (List.map (fun w => EvWrite (fst w) (snd w))
       (List.map (fun data => (dest, data)) items)) = items.
Proof.
  induction items as [|data items IH]; [reflexivity|].
  cbn [List.map written_to fst snd].
  rewrite bool_decide_eq_true_2 by reflexivity. f_equal. exact IH.
Qed.

Lemma written_to_other (dest name : string) (items : list pystr) :
  name <> dest ->
  written_to dest
    (List.map (fun w => EvWrite (fst w) (snd w))
       (List.map (fun data => (name, data)) items)) = [].
Proof.
  intros Hne. induction items as [|data items IH]; [reflexivity|].
  cbn [List.map written_to fst snd].
  rewrite bool_decide_eq_false_2 by exact Hne. exact IH.
Qed.

Lemma written_to_thread_events (dest : string) (t : thread) :
  written_to dest (thread_events t)
    = written_to dest (List.map (fun w => EvWrite (fst w) (snd w)) (written t)).
Proof.
  unfold thread_events. rewrite written_to_app.
  destruct (finished t); cbn [written_to]; apply app_nil_r.
Qed.

Lemma Local_mux_written E read_func dflt v hide encoding :
  is_sink v = true ->
  written (Local_mux E read_func (if is_None v then VStream dflt else v)
             hide encoding)
    = if hide then []
      else List.map (fun data => (sink_name dflt v, data))
             (decoded E read_func encoding).
Proof.
  intros Hv. destruct hide; [apply Local_mux_hidden|].
  destruct v; try discriminate Hv; apply Local_mux_shown.
Qed.

(** X12: the chunks of each stream are written to the stream's own sink
    and to no other.  When [out_stream] and [err_stream] are [None] or
    file-like objects and stand for two different sinks ([sys.stdout] and
    [sys.stderr] when they are [None]), the [_mux] threads write to the
    stdout sink the decoded chunks of stdout, in order, unless stdout is
    hidden; to the stderr sink those of stderr, unless it is hidden or a
    pty is used; and no chunk to any other sink.  (The echo of the
    command, the fallback warning and the traceback of a thread are not
    chunks of the child's output: see X13.) *)
Theorem each_stream_to_its_sink (c : call) (s s' : state)
    (x : exn + Result) (r : Result) (h o e p f enc : value)
    (hide : list value) :
  Local_run c s = (x, s') -> result_of x = Some r ->
  call_opts c s !! "hide" = Some h -> normalize_hide h = inr hide ->
  call_opts c s !! "out_stream" = Some o -> is_sink o = true ->
  call_opts c s !! "err_stream" = Some e -> is_sink e = true ->
  call_opts c s !! "pty" = Some p ->
  call_opts c s !! "fallback" = Some f ->
  call_opts c s !! "encoding" = Some enc ->
  sink_name "sys.stdout" o <> sink_name "sys.stderr" e ->
  let E := call_env c in
  let used := decidePtyUsage E p f in
  let child := spawn E (call_command c) used in
  let encoding :=
    if is_None enc then VStr (getpreferredencoding E) else enc in
  exists evs : list event,
    log s' = log s ++ evs /\
    written_to (sink_name "sys.stdout" o) evs
      = (if py_in (VStr (lit "out")) hide then []
         else decoded E (stdout_of child used) encoding) /\
    written_to (sink_name "sys.stderr" e) evs
      = (if used || py_in (VStr (lit "err")) hide then []
         else decoded E (pipe_reader (stderr_reads child)) encoding) /\
    (forall dest,
        dest <> sink_name "sys.stdout" o ->
        dest <> sink_name "sys.stderr" e ->
        written_to dest evs = []).
Proof.
  intros H Hr Hh Hn Ho Hso He Hse Hp Hf Henc Hne E used child encoding.
  destruct (Local_run_result c s s' x r H Hr)
    as (h0 & hide0 & o0 & e0 & echo & p0 & f0 & enc0
        & Hh0 & Hn0 & Ho0 & He0 & Hecho & Hp0 & Hf0 & Henc0 & _ & _ & _ & _
        & Hlog).
  fold E in Hh0, Ho0, He0, Hp0, Hf0, Henc0, Hlog.
  rewrite Hh in Hh0. rewrite Ho in Ho0. rewrite He in He0. rewrite Hp in Hp0.
  rewrite Hf in Hf0. rewrite Henc in Henc0.
  injection Hh0 as <-. injection Ho0 as <-. injection He0 as <-.
  injection Hp0 as <-. injection Hf0 as <-. injection Henc0 as <-.
  rewrite Hn in Hn0. injection Hn0 as <-.
  fold used in Hlog.
  assert (Hwo : written (out_thread E (call_command c) used o hide enc)
            = if py_in (VStr (lit "out")) hide then []
              else List.map (fun data => (sink_name "sys.stdout" o, data))
                     (decoded E (stdout_of child used) encoding)).
  { unfold out_thread. apply Local_mux_written, Hso. }
  assert (Hwe : written (err_thread E (call_command c) used e hide enc)
            = if used || py_in (VStr (lit "err")) hide then []
              else List.map (fun data => (sink_name "sys.stderr" e, data))
                     (decoded E (pipe_reader (stderr_reads child)) encoding)).
  { unfold err_thread. destruct used eqn:Hu; [reflexivity|].
    cbn [orb]. apply Local_mux_written, Hse. }
  eexists. split; [exact Hlog|].
  assert (Hpre : forall dest,
             written_to dest
               ((if truthy echo then [EvPrint (echo_text (call_command c))]
                 else []) ++
                (if falls_back E p f && negb (warned_about_pty_fallback (self s))
                 then [EvWarning pty_fallback_warning] else []) ++
                [EvSpawn (call_command c) used]) = []).
  { intros dest. destruct (truthy echo), (falls_back E p f && _); reflexivity. }
  assert (Hall : forall dest,
             written_to dest
               ((if truthy echo then [EvPrint (echo_text (call_command c))]
                 else []) ++
                (if falls_back E p f && negb (warned_about_pty_fallback (self s))
                 then [EvWarning pty_fallback_warning] else []) ++
                [EvSpawn (call_command c) used] ++
                thread_events (out_thread E (call_command c) used o hide enc) ++
                thread_events (err_thread E (call_command c) used e hide enc))
             = written_to dest
                 (List.map (fun w => EvWrite (fst w) (snd w))
                    (written (out_thread E (call_command c) used o hide enc)))
               ++ written_to dest
                    (List.map (fun w => EvWrite (fst w) (snd w))
                       (written (err_thread E (call_command c) used e hide enc)))).
  { intros dest. rewrite !app_assoc, <- (app_assoc _ _ [EvSpawn _ _]).
    rewrite <- app_assoc, written_to_app, Hpre, written_to_app,
      !written_to_thread_events. reflexivity. }
  split; [|split].
  - rewrite Hall, Hwo, Hwe.
    destruct (py_in (VStr (lit "out")) hide),
             (used || py_in (VStr (lit "err")) hide);
      cbn [List.map written_to app];
      rewrite ?written_to_same, ?written_to_other, ?app_nil_r by congruence;
      reflexivity.
  - rewrite Hall, Hwo, Hwe.
    destruct (py_in (VStr (lit "out")) hide),
             (used || py_in (VStr (lit "err")) hide);
      cbn [List.map written_to app];
      rewrite ?written_to_same, ?written_to_other by congruence;
      reflexivity.
  - intros dest Hd1 Hd2. rewrite Hall, Hwo, Hwe.
    destruct (py_in (VStr (lit "out")) hide),
             (used || py_in (VStr (lit "err")) hide);
      cbn [List.map written_to app];
      rewrite ?written_to_other by congruence; reflexivity.
Qed.

(** The base class at the defaults of a [Context()]. *)
Lemma base_Runner_cannot_run_witness :
  fst (Runner_run (sample_env false true) (lit "0") ∅
         (initial_state default_config))
    = inl (AttributeError "start").
Proof.
  destruct (base_Runner_cannot_run (sample_env false true) (lit "0") ∅
              (initial_state default_config))
    as (e & s' & Hrun & _ & _ & _ & Hstart).
  destruct (Hstart ltac:(vm_compute; reflexivity)) as [-> _].
  rewrite Hrun. reflexivity.
Defined.

(** [out_stream] overridden: the override gets stdout, [sys.stderr] gets
    stderr, [sys.stdout] gets nothing. *)
Lemma each_stream_to_its_sink_witness :
  let c := {| call_env := sample_env false true; call_command := lit "0";
              call_kwargs := <["out_stream" := VStream "out"]> ∅ |} in
  let s := initial_state default_config in
  exists evs : list event,
    log (snd (Local_run c s)) = log s ++ evs /\
    written_to "out" evs = [[104; 13; 10]; [233]]%N /\
    written_to "sys.stderr" evs = [[111; 111; 112; 115]]%N /\
    written_to "sys.stdout" evs = [].
Proof.
  intros c s.
  destruct (each_stream_to_its_sink c s (snd (Local_run c s))
              (fst (Local_run c s))
              (Result_init [104; 13; 10; 233]%N [111; 111; 112; 115]%N 0
                 (VBool false) (VBool false))
              VNone (VStream "out") VNone (VBool false) (VBool true) VNone [])
    as (evs & Hlog & Hout & Herr & Hother);
    try (vm_compute; reflexivity); [discriminate|].
  cbn [sink_name] in Hout, Herr, Hother.
  exists evs. split; [exact Hlog|].
  split; [rewrite Hout; vm_compute; reflexivity|].
  split; [rewrite Herr; vm_compute; reflexivity|].
  apply Hother; discriminate.
Defined.

(** ** The order of what a call does *)

Lemma by_thread_thread_events (t : thread) :
  forallb by_thread (thread_events t) = true.
Proof.
  unfold thread_events. rewrite forallb_app. apply andb_true_iff. split.
  - induction (written t) as [|w ws IH]; [reflexivity | exact IH].
  - destruct (finished t); reflexivity.
Qed.

(** X13: what a call that yields a Result does, in order: it prints the
    command, once, if [echo] is true; it writes the fallback warning, if
    it falls back and the flag is unset; it starts its one child; and all
    that follows is done by the [_mux] threads: the writes to the sinks,
    and the traceback of a thread that an exception has ended.  So the
    command is echoed before anything of the child's output, and the
    warning after the echo and before the child is started. *)
Theorem order_of_events (c : call) (s s' : state) (x : exn + Result)
    (r : Result) (echo p f : value) :
  Local_run c s = (x, s') -> result_of x = Some r ->
  call_opts c s !! "echo" = Some echo ->
  call_opts c s !! "pty" = Some p ->
  call_opts c s !! "fallback" = Some f ->
  let E := call_env c in
  let used := decidePtyUsage E p f in
  exists post : list event,
    log s' = log s
      ++ (if truthy echo then [EvPrint (echo_text (call_command c))] else [])
      ++ (if falls_back E p f && negb (warned_about_pty_fallback (self s))
          then [EvWarning pty_fallback_warning] else [])
      ++ EvSpawn (call_command c) used :: post /\
    forallb by_thread post = true.
Proof.
  intros H Hr Hecho Hp Hf E used.
  destruct (Local_run_result c s s' x r H Hr)
    as (h0 & hide0 & o0 & e0 & echo0 & p0 & f0 & enc0
        & _ & _ & _ & _ & Hecho0 & Hp0 & Hf0 & _ & _ & _ & _ & _ & Hlog).
  fold E in Hecho0, Hp0, Hf0, Hlog.
  rewrite Hecho in Hecho0. rewrite Hp in Hp0. rewrite Hf in Hf0.
  injection Hecho0 as <-. injection Hp0 as <-. injection Hf0 as <-.
  fold used in Hlog.
  eexists. split; [exact Hlog|].
  rewrite forallb_app, !by_thread_thread_events. reflexivity.
Qed.

(** Without a terminal, [pty=True] and [echo=True]: the echo, the
    warning, the child in pipe mode, then the chunks. *)
Lemma order_of_events_witness :
  let c := {| call_env := sample_env false false; call_command := lit "0";
              call_kwargs := <["echo" := VBool true]>
                               (<["pty" := VBool true]> ∅) |} in
  let s := initial_state default_config in
  let E := call_env c in
  let used := decidePtyUsage E (VBool true) (VBool true) in
  exists post : list event,
    log (snd (Local_run c s)) = log s
      ++ (if truthy (VBool true)
          then [EvPrint (echo_text (call_command c))] else [])
      ++ (if falls_back E (VBool true) (VBool true)
             && negb (warned_about_pty_fallback (self s))
          then [EvWarning pty_fallback_warning] else [])
      ++ EvSpawn (call_command c) used :: post /\
    forallb by_thread post = true.
Proof.
  intros c s.
  apply (order_of_events c s (snd (Local_run c s)) (fst (Local_run c s))
           (Result_init [104; 13; 10; 233]%N [111; 111; 112; 115]%N 0
              (VBool false) (VBool false)));
    vm_compute; reflexivity.
Defined.

Example order_of_events_fallback :
  log (snd (Local_run
              {| call_env := sample_env false false; call_command := lit "0";
                 call_kwargs := <["echo" := VBool true]>
                                  (<["pty" := VBool true]> ∅) |}
              (initial_state default_config)))
    = [EvPrint (echo_text (lit "0")); EvWarning pty_fallback_warning;
       EvSpawn (lit "0") false;
       EvWrite "sys.stdout" [104; 13; 10]%N; EvWrite "sys.stdout" [233]%N;
       EvWrite "sys.stderr" [111; 111; 112; 115]%N].
Proof. vm_compute. reflexivity. Qed.

(** Under a pty on Linux the stdout thread ends by the [OSError] of the
    read at the end of the stream, after it has written everything. *)
Example order_of_events_pty :
  log (snd (Local_run (pty_call false true (VBool true))
              (initial_state default_config)))
    = [EvSpawn (call_command (pty_call false true (VBool true))) true;
       EvWrite "sys.stdout" [104; 13; 10]%N; EvWrite "sys.stdout" [233]%N;
       EvTraceback].
Proof. vm_compute. reflexivity. Qed.

(** ** Capture with sinks that take the writes *)



(** ** The end of a stream, and a sink that cannot be written to *)

Lemma get_from_after_empty_read (chunks more : list bytes)
    (at_end at_end' : bool) :
  get_from at_end (chunks ++ [] :: more) = get_from false chunks.
Proof.
  induction chunks as [|data rest IH]; [reflexivity|].
  cbn [app get_from]. rewrite IH. reflexivity.
Qed.

Lemma get_from_nonempty (at_end : bool) (chunks : list bytes) :
  Forall (fun data => data <> []) (fst (get_from at_end chunks)).
Proof.
  induction chunks as [|data rest IH]; [constructor|].
  cbn [get_from]. destruct data; [constructor|]. cbn [nonempty].
  destruct (get_from at_end rest) as [ys returns].
  constructor; [discriminate | exact IH].
Qed.

(** X14: a [_mux] thread stops reading at the first empty read: whatever
    later reads would do, return or raise, does not change what it writes
    and captures, which is what it does with a pipe that ends there; and
    no chunk it hands to the decoder is empty. *)
Theorem mux_stops_at_empty_read (E : environment)
    (chunks more : list bytes) (at_end : bool) (read_func : reader)
    (dest : value) (hide : bool) (encoding : value) :
  Local_mux E {| reads := chunks ++ [] :: more; raises_at_end := at_end |}
      dest hide encoding
    = Local_mux E (pipe_reader chunks) dest hide encoding /\
  Forall (fun data => data <> []) (fst (get read_func)).
Proof.
  split; [|apply get_from_nonempty].
  unfold Local_mux, get, pipe_reader. cbn [reads raises_at_end].
  rewrite get_from_after_empty_read by exact at_end. reflexivity.
Qed.

Lemma mux_loop_unwritable (dest : value) (items : list pystr) (end_ok : bool) :
  (forall name, dest <> VStream name) ->
  let t := mux_loop dest false items end_ok in
  written t = [] /\ captured t = [] /\ (items <> [] -> finished t = false).
Proof.
  intros Hd. destruct items as [|data rest]; [repeat split; congruence|].
  cbn [mux_loop negb].
  destruct dest; try (repeat split; reflexivity).
  exfalso. exact (Hd _ eq_refl).
Qed.

(** X15: when the sink is not a file-like object, capture does depend on
    [hide]: shown, the thread ends at its first chunk, having written and
    captured nothing; hidden, it captures every chunk. *)
Theorem unwritable_sink_loses_output (E : environment)
    (read_func : reader) (dest : value) (encoding : value) :
  (forall name, dest <> VStream name) ->
  let shown := Local_mux E read_func dest false encoding in
  let hidden := Local_mux E read_func dest true encoding in
  written shown = [] /\ captured shown = [] /\
  (decoded E read_func encoding <> [] -> finished shown = false) /\
  captured hidden = decoded E read_func encoding.
Proof.
  intros Hd shown hidden.
  split; [|split; [|split]]; try apply Local_mux_hidden.
  all: unfold shown, Local_mux, decoded;
    destruct (lookup_decoder E encoding) as [cd|]; try reflexivity;
    destruct (iterdecode cd replace (get read_func)) as [items end_ok];
    apply (mux_loop_unwritable dest items end_ok Hd).
Qed.

Lemma unwritable_sink_loses_output_witness :
  let E := sample_env false true in
  let read_func := pipe_reader [[104; 105]]%N in
  let shown := Local_mux E read_func (VInt 7) false (VStr (lit "utf-8")) in
  let hidden := Local_mux E read_func (VInt 7) true (VStr (lit "utf-8")) in
  written shown = [] /\ captured shown = [] /\
  (decoded E read_func (VStr (lit "utf-8")) <> [] -> finished shown = false) /\
  captured hidden = decoded E read_func (VStr (lit "utf-8")).
Proof.
  intros E read_func.
  apply (unwritable_sink_loses_output E read_func (VInt 7)
           (VStr (lit "utf-8"))).
  intros name. discriminate.
Defined.

(** ** One call after another *)

(** A call never changes the configuration of the context. *)
Lemma Local_run_config (c : call) (s : state) :
  context_config_run (self (snd (Local_run c s)))
    = context_config_run (self s).
Proof.
  rewrite Local_run_eq.
  destruct (prestart_error (call_opts c s)) as [e|] eqn:Hpre.
  - rewrite (execute_prestart_error _ _ _ _ _ _ Hpre). reflexivity.
  - destruct (prestart_error_None _ Hpre)
      as (h & hide & o & e & echo & p & f & Hh & Hn & Ho & He & Hecho & Hp & Hf).
    destruct (call_opts c s !! "encoding") as [enc|] eqn:Henc.
    + destruct (Local_execute_eq (call_env c) (call_command c) _ s
                  _ _ _ _ _ _ _ _ Hh Hn Ho He Hecho Hp Hf Henc)
        as (s1 & -> & Hcfg & _).
      rewrite raise_or_return_eq. exact Hcfg.
    + destruct (Local_execute_no_encoding (call_env c) (call_command c) _ s
                  _ _ _ _ _ _ _ Hh Hn Ho He Hecho Hp Hf Henc)
        as (s1 & -> & Hcfg & _).
      exact Hcfg.
Qed.

(** What a call returns or raises depends on the instance through the
    configuration of its context only. *)
Lemma Local_run_outcome (c : call) (s1 s2 : state) :
  context_config_run (self s1) = context_config_run (self s2) ->
  fst (Local_run c s1) = fst (Local_run c s2).
Proof.
  intros Hcfg. rewrite !Local_run_eq.
  assert (Hopts : call_opts c s1 = call_opts c s2)
    by (unfold call_opts; rewrite Hcfg; reflexivity).
  rewrite <- Hopts.
  destruct (prestart_error (call_opts c s1)) as [e|] eqn:Hpre.
  - rewrite !(execute_prestart_error _ _ _ _ _ _ Hpre). reflexivity.
  - destruct (prestart_error_None _ Hpre)
      as (h & hide & o & e & echo & p & f & Hh & Hn & Ho & He & Hecho & Hp & Hf).
    destruct (call_opts c s1 !! "encoding") as [enc|] eqn:Henc.
    + destruct (Local_execute_eq (call_env c) (call_command c) _ s1
                  _ _ _ _ _ _ _ _ Hh Hn Ho He Hecho Hp Hf Henc)
        as (t1 & -> & _).
      destruct (Local_execute_eq (call_env c) (call_command c) _ s2
                  _ _ _ _ _ _ _ _ Hh Hn Ho He Hecho Hp Hf Henc)
        as (t2 & -> & _).
      rewrite !raise_or_return_eq. reflexivity.
    + destruct (Local_execute_no_encoding (call_env c) (call_command c) _ s1
                  _ _ _ _ _ _ _ Hh Hn Ho He Hecho Hp Hf Henc)
        as (t1 & -> & _).
      destruct (Local_execute_no_encoding (call_env c) (call_command c) _ s2
                  _ _ _ _ _ _ _ Hh Hn Ho He Hecho Hp Hf Henc)
        as (t2 & -> & _).
      reflexivity.
Qed.

Lemma run_all_config (calls : list call) (s : state) :
  context_config_run (self (snd (run_all calls s)))
    = context_config_run (self s).
Proof.
  revert s. induction calls as [|c calls IH]; intros s; [reflexivity|].
  cbn [run_all]. pose proof (Local_run_config c s) as Hc.
  destruct (Local_run c s) as [x s1]. cbn [snd] in Hc.
  specialize (IH s1). destruct (run_all calls s1) as [xs s2].
  cbn [snd] in *. congruence.
Qed.

(** X16: calls on one instance do not influence each other's outcome.
    What a call returns or raises after any sequence of earlier calls
    (with other commands, keyword arguments, pty or pipe mode, returning
    or raising) is what it returns or raises on a fresh instance: keyword
    overrides do not persist, the configuration is never changed, and the
    process handle, the wait status and [using_pty] left by an earlier
    call are never read before they are set again. *)
Theorem calls_are_independent (calls : list call)
    (context_run : gmap string value) (c : call) :
  fst (Local_run c (snd (run_all calls (initial_state context_run))))
    = fst (Local_run c (initial_state context_run)) /\
  context_config_run (self (snd (run_all calls (initial_state context_run))))
    = context_run.
Proof.
  split; [apply Local_run_outcome|]; apply run_all_config.
Qed.
